(** * Domain blocking: the domain-to-IP mapping orchestrator

    A shallow embedding of [control/DomainBlock.js] and the properties of
    its block, unblock and reconcile workflows.

    The orchestrator drives its collaborators through promises: the DNS
    policy filter (dnsmasq), the reload notifier (sem), the resolver
    (dns.resolve4 / dns.resolve6), the reverse-DNS cache (dnsTool), the IP
    block primitive (Block) and the mapping store (the Redis client
    rclient).  A workflow is embedded as a function from the state of the
    world to a settled promise and a new world.  The world holds the
    module-level flag [globalLock], the Redis sets of the mapping store and
    the chronological list of everything the code did to its collaborators.
    Whether a collaborator's promise rejects, and which addresses a lookup
    answers, is decided by an environment that sees the whole history.

    A workflow that runs its body is followed from await to await without
    interleaving; the rest of the process acts while a workflow waits in
    [delay].  Addresses are the strings of IP addresses: none of them is an
    array index or the name of a property of Object.prototype. *)

From stdpp Require Import base option list strings gmap sets.
From Stdlib Require Import ZArith.

Open Scope string_scope.
Open Scope Z_scope.
Open Scope list_scope.

(** ** Data model *)

(** The [options] argument: [exactMatch] is read by the code; the field
    named [externalMapping] is the one the interface description lists.
    [None] stands for a field that is undefined. *)
Record Options := mkOptions {
  exactMatch : option bool;
  options_externalMapping : option string
}.

(** The receiver [this]: the class declares no field and its constructor is
    empty, so [this.externalMapping] is undefined unless a caller assigned
    the property on the instance. *)
Record DomainBlock := mkDomainBlock {
  externalMapping : option string
}.

(** [new DomainBlock()] *)
Definition new_DomainBlock : DomainBlock := {| externalMapping := None |}.

(** [{}] *)
Definition empty_options : Options :=
  {| exactMatch := None; options_externalMapping := None |}.

(** [options || {}] for an argument that may be missing. *)
Definition options_or_empty (options : option Options) : Options :=
  default empty_options options.

(** Truthiness of a value that is undefined or a string: the empty string
    is falsy. *)
Definition truthy_string (v : option string) : bool :=
  match v with
  | Some s => negb (String.eqb s "")
  | None => false
  end.

(** Truthiness of a value that is undefined or a boolean. *)
Definition truthy_bool (v : option bool) : bool := default false v.

(** Everything the code does that another component can observe, in the
    vocabulary of the source. *)
Inductive Event :=
| AddPolicyFilterEntry (domain : string)
| RemovePolicyFilterEntry (domain : string)
| EmitEvent (type message toProcess : string)
| Resolve4 (domain : string)
| Resolve6 (domain : string)
| AddReverseDns (domain : string) (addresses : list string)
| GetAddressesByDNS (domain : string)
| GetAddressesByDNSPattern (domain : string)
| Sadd (key : string) (members : list string)
| Smembers (key : string)
| Exists (key : string)
| Del (key : string)
| BlockAddr (addr set : string)
| UnblockAddr (addr set : string)
| Delay (ms : Z)
| SetTimeoutIncrementalUpdate (ms : Z) (domain : string) (options : Options)
| SetGlobalLock (b : bool).

Global Instance Options_eq_dec : EqDecision Options.
Proof. solve_decision. Defined.

Global Instance Event_eq_dec : EqDecision Event.
Proof. solve_decision. Defined.

(** The state of the world between two steps of a workflow. *)
Record World := mkWorld {
  globalLock : bool;
  store : gmap string (gset string);
  trace : list Event
}.

(** The members of a Redis set; a key that does not exist is the empty
    set. *)
Definition members (key : string) (st : gmap string (gset string)) : gset string :=
  default ∅ (st !! key).

Definition mapping (key : string) (w : World) : gset string :=
  members key (store w).

(** The environment of a run.  [rejects h ev] tells whether the promise of
    the call [ev], issued after the history [h], rejects.  [answers h ev] is
    the address list a resolver or reverse-DNS lookup fulfils with.
    [meanwhile w] is what the rest of the process has made of the lock and
    of the store when a timer started in [w] fires. *)
Record Env := mkEnv {
  rejects : list Event → Event → bool;
  answers : list Event → Event → list string;
  meanwhile : World → bool * gmap string (gset string)
}.

(** A promise, once the run has gone as far as its fuel allows. *)
Inductive Settled (A : Type) :=
| Fulfilled (a : A)
| Rejected (err : Event)
| Pending.
Arguments Fulfilled {A} a.
Arguments Rejected {A} err.
Arguments Pending {A}.

(** How a run has ended: fulfilled, or, unless [strict], rejected. *)
Definition ends (strict : bool) {A} (r : Settled A) : bool :=
  match r with
  | Fulfilled _ => true
  | Rejected _ => negb strict
  | Pending => false
  end.

Definition settled {A} (r : Settled A) : bool := ends false r.
Definition fulfilled {A} (r : Settled A) : bool := ends true r.

(** ** The monad of asynchronous code *)

Definition M (A : Type) : Type := World → Settled A * World.

Global Instance M_ret : MRet M := λ A a w, (Fulfilled a, w).

Global Instance M_bind : MBind M := λ A B f m w,
  match m w with
  | (Fulfilled a, w') => f a w'
  | (Rejected e, w') => (Rejected e, w')
  | (Pending, w') => (Pending, w')
  end.

(** [p.catch((err) => v)] *)
Definition catch {A} (m : M A) (handler : Event → A) : M A := λ w,
  match m w with
  | (Rejected e, w') => (Fulfilled (handler e), w')
  | r => r
  end.

(** [p.finally(() => { ... })]: the handler runs when [p] settles, and the
    outcome of [p] passes through. *)
Definition finally {A} (m : M A) (handler : World → World) : M A := λ w,
  match m w with
  | (Pending, w') => (Pending, w')
  | (r, w') => (r, handler w')
  end.

Definition record (ev : Event) (w : World) : World :=
  {| globalLock := globalLock w; store := store w; trace := trace w ++ [ev] |}.

(** A synchronous, observable action that cannot fail. *)
Definition emit (ev : Event) : M unit := λ w, (Fulfilled tt, record ev w).

(** [log.info(...)]: logging is not part of the observable behaviour. *)
Definition log_info (msg : string) : M unit := mret tt.

(** Array.prototype.forEach with a callback that awaits: the calls run one
    after the other in the fiber of the enclosing async function, and an
    exception thrown by a callback ends the loop. *)
Fixpoint forEach {A} (l : list A) (f : A → M unit) : M unit :=
  match l with
  | [] => mret tt
  | x :: l' => f x ;; forEach l' f
  end.

(** ** The mapping store: Redis sets *)

(** SADD: the members join the set, which is created when the key is new.
    Redis has no empty sets, and the server refuses a SADD without members
    (the environment's [rejects] may say so). *)
Definition store_sadd (key : string) (ms : list string)
    (st : gmap string (gset string)) : gmap string (gset string) :=
  match ms with
  | [] => st
  | _ => <[key := members key st ∪ list_to_set ms]> st
  end.

(** DEL *)
Definition store_del (key : string)
    (st : gmap string (gset string)) : gmap string (gset string) :=
  delete key st.

(** EXISTS *)
Definition store_exists (key : string) (st : gmap string (gset string)) : bool :=
  bool_decide (is_Some (st !! key)).

(** SMEMBERS *)
Definition store_smembers (key : string) (st : gmap string (gset string)) : list string :=
  elements (members key st).

Definition set_store (st : gmap string (gset string)) (w : World) : World :=
  {| globalLock := globalLock w; store := st; trace := trace w |}.

Definition set_globalLock_in (b : bool) (w : World) : World :=
  {| globalLock := b; store := store w; trace := trace w ++ [SetGlobalLock b] |}.

Section Workflows.

Context (env : Env) (this : DomainBlock).

(** A promise-returning call to a collaborator: the call is issued, then
    its promise rejects or fulfils with [value]; [effect] is what a
    successful call does to the world. *)
Definition call {A} (ev : Event) (value : World → A) (effect : World → World) : M A :=
  λ w,
    if rejects env (trace w) ev
    then (Rejected ev, record ev w)
    else (Fulfilled (value w), effect (record ev w)).

Definition lookup_call (ev : Event) : M (list string) :=
  λ w, call ev (λ _, answers env (trace w) ev) id w.

Definition dnsmasq_addPolicyFilterEntry (domain : string) : M unit :=
  call (AddPolicyFilterEntry domain) (λ _, tt) id.
Definition dnsmasq_removePolicyFilterEntry (domain : string) : M unit :=
  call (RemovePolicyFilterEntry domain) (λ _, tt) id.
Definition resolve4Async (domain : string) : M (list string) :=
  lookup_call (Resolve4 domain).
Definition resolve6Async (domain : string) : M (list string) :=
  lookup_call (Resolve6 domain).
Definition dnsTool_addReverseDns (domain : string) (addresses : list string) : M unit :=
  call (AddReverseDns domain addresses) (λ _, tt) id.
Definition dnsTool_getAddressesByDNS (domain : string) : M (list string) :=
  lookup_call (GetAddressesByDNS domain).
Definition dnsTool_getAddressesByDNSPattern (domain : string) : M (list string) :=
  lookup_call (GetAddressesByDNSPattern domain).
Definition Block_block (addr set : string) : M unit :=
  call (BlockAddr addr set) (λ _, tt) id.
Definition Block_unblock (addr set : string) : M unit :=
  call (UnblockAddr addr set) (λ _, tt) id.

Definition rclient_saddAsync (key : string) (ms : list string) : M unit :=
  call (Sadd key ms) (λ _, tt) (λ w, set_store (store_sadd key ms (store w)) w).
Definition rclient_smembersAsync (key : string) : M (list string) :=
  call (Smembers key) (λ w, store_smembers key (store w)) id.
Definition rclient_existsAsync (key : string) : M bool :=
  call (Exists key) (λ w, store_exists key (store w)) id.
Definition rclient_delAsync (key : string) : M unit :=
  call (Del key) (λ _, tt) (λ w, set_store (store_del key (store w)) w).

(** [sem.emitEvent({type: 'ReloadDNSRule', ...})] *)
Definition sem_emitEvent_ReloadDNSRule : M unit :=
  emit (EmitEvent "ReloadDNSRule" "DNSMASQ filter rule is updated" "FireMain").

(** [delay(t)]: a promise that a timer fulfils and that never rejects.
    While the workflow waits the rest of the process runs. *)
Definition delay (t : Z) : M unit := λ w,
  let w' := record (Delay t) w in
  (Fulfilled tt,
   {| globalLock := (meanwhile env w').1;
      store := (meanwhile env w').2;
      trace := trace w' |}).

Definition get_globalLock : M bool := λ w, (Fulfilled (globalLock w), w).
Definition set_globalLock (b : bool) : M unit :=
  λ w, (Fulfilled tt, set_globalLock_in b w).

(** ** The mapping key resolver *)

Definition getDomainIPMappingKey (domain : string) (options : option Options) : string :=
  let options := options_or_empty options in
  if truthy_string (externalMapping this) then
    default "" (externalMapping this)
  else if truthy_bool (exactMatch options) then
    "ipmapping:exactdomain:" +:+ domain
  else
    "ipmapping:domain:" +:+ domain.

Definition removeDomainIPMapping (domain : string) (options : option Options) : M unit :=
  let key := getDomainIPMappingKey domain options in
  rclient_delAsync key.

Definition getMappedIPAddresses (domain : string) (options : option Options) : M (list string) :=
  let key := getDomainIPMappingKey domain options in
  rclient_smembersAsync key.

(** ** The block applier *)

Definition applyBlock (domain : string) (options : option Options) : M unit :=
  addresses ← getMappedIPAddresses domain options;
  (* an array is truthy, also when it is empty *)
  forEach addresses (λ addr,
    catch (Block_block addr "blocked_domain_set") (λ _, tt)).

Definition unapplyBlock (domain : string) (options : option Options) : M unit :=
  addresses ← getMappedIPAddresses domain options;
  forEach addresses (λ addr,
    catch (Block_unblock addr "blocked_domain_set") (λ _, tt)).

(** ** Resolution and merge *)

Definition resolveDomain (domain : string) : M (list string) :=
  v4Addresses ← catch (resolve4Async domain) (λ _, []);
  dnsTool_addReverseDns domain v4Addresses;;
  v6Addresses ← catch (resolve6Async domain) (λ _, []);
  dnsTool_addReverseDns domain v6Addresses;;
  mret (v4Addresses ++ v6Addresses).

Definition syncDomainIPMapping (domain : string) (options : option Options) : M unit :=
  let options := options_or_empty options in
  let key := getDomainIPMappingKey domain (Some options) in
  resolveDomain domain;;
  let list := [] in
  addresses ← catch (dnsTool_getAddressesByDNS domain) (λ _, []);
  let list := list ++ addresses in
  list ← (if negb (truthy_bool (exactMatch options)) then
            patternAddresses ← catch (dnsTool_getAddressesByDNSPattern domain) (λ _, []);
            mret (list ++ patternAddresses)
          else mret list);
  rclient_saddAsync key list.

(** ** The workflows under the lock *)

(** [fuel] bounds the number of nested invocations: an invocation that
    finds the lock held waits and invokes the workflow again. *)
Fixpoint blockDomain (fuel : nat) (domain : string) (options : option Options) : M unit :=
  let options := options_or_empty options in
  match fuel with
  | O => λ w, (Pending, w)
  | S fuel' =>
    finally
      (locked ← get_globalLock;
       if locked : bool then
         log_info "blockDomain is deferred due to lock";;
         delay 5000;;
         blockDomain fuel' domain (Some options)
       else
         set_globalLock true;;
         catch (dnsmasq_addPolicyFilterEntry domain) (λ _, tt);;
         sem_emitEvent_ReloadDNSRule;;
         syncDomainIPMapping domain (Some options);;
         applyBlock domain (Some options);;
         (* reinforce in 60 seconds *)
         emit (SetTimeoutIncrementalUpdate (60 * 1000) domain options))
      (set_globalLock_in false)
  end.

Fixpoint unblockDomain (fuel : nat) (domain : string) (options : option Options) : M unit :=
  match fuel with
  | O => λ w, (Pending, w)
  | S fuel' =>
    finally
      (locked ← get_globalLock;
       if locked : bool then
         log_info "unblockDomain is deferred due to lock";;
         delay 5000;;
         unblockDomain fuel' domain options
       else
         set_globalLock true;;
         unapplyBlock domain options;;
         (if negb (truthy_string (externalMapping this))
          then removeDomainIPMapping domain options
          else mret tt);;
         catch (dnsmasq_removePolicyFilterEntry domain) (λ _, tt);;
         sem_emitEvent_ReloadDNSRule)
      (set_globalLock_in false)
  end.

(** A plain object used as a set of strings, [set[addr] = 1]: its keys in
    the order [for (addr in set)] visits them, which is the order of first
    insertion for keys that are not array indices, as addresses are. *)
Definition obj_put (o : list string) (k : string) : list string :=
  if bool_decide (k ∈ o) then o else o ++ [k].

(** [set[addr]] is truthy. *)
Definition obj_has (o : list string) (k : string) : bool :=
  bool_decide (k ∈ o).

(** The reconciler: incremental update of the mapping.  The key is computed
    and "Incrementally updating blocking list for" is logged before the
    async body starts. *)
Fixpoint incrementalUpdateIPMapping (fuel : nat) (domain : string)
    (options : option Options) : M unit :=
  let options := options_or_empty options in
  let key := getDomainIPMappingKey domain (Some options) in
  match fuel with
  | O => λ w, (Pending, w)
  | S fuel' =>
    finally
      (locked ← get_globalLock;
       if locked : bool then
         log_info "incrementalUpdate is deferred due to lock";;
         delay 5000;;
         incrementalUpdateIPMapping fuel' domain (Some options)
       else
         set_globalLock true;;
         existing ← rclient_existsAsync key;
         if negb existing then mret tt
         else
           resolveDomain domain;;
           let set := [] in
           addresses ← catch (dnsTool_getAddressesByDNS domain) (λ _, []);
           let set := foldl obj_put set addresses in
           set ← (if negb (truthy_bool (exactMatch options)) then
                    patternAddresses ← catch (dnsTool_getAddressesByDNSPattern domain) (λ _, []);
                    mret (foldl obj_put set patternAddresses)
                  else mret set);
           existingAddresses ← getMappedIPAddresses domain (Some options);
           let existingSet := foldl obj_put [] existingAddresses in
           (* only add new changed ip addresses *)
           forEach set (λ addr,
             if negb (obj_has existingSet addr) then
               rclient_saddAsync key [addr];;
               catch (Block_block addr "blocked_domain_set") (λ _, tt)
             else mret tt))
      (set_globalLock_in false)
  end.

End Workflows.

(** ** Concrete environments and worlds *)

(** What the reverse-DNS cache has recorded for a domain in a history. *)
Fixpoint recorded (domain : string) (h : list Event) : list string :=
  match h with
  | [] => []
  | AddReverseDns d addrs :: h' =>
      (if String.eqb d domain then addrs else []) ++ recorded domain h'
  | _ :: h' => recorded domain h'
  end.

(** A resolver that answers [v4] and nothing over IPv6, a reverse-DNS cache
    that returns what was recorded and has [pattern] for the subdomains. *)
Definition answers_with (v4 pattern : list string) (h : list Event) (ev : Event) : list string :=
  match ev with
  | Resolve4 _ => v4
  | GetAddressesByDNS d => recorded d h
  | GetAddressesByDNSPattern _ => pattern
  | _ => []
  end.

Definition undisturbed (w : World) : bool * gmap string (gset string) :=
  (globalLock w, store w).

(** Nothing fails. *)
Definition calm_env (v4 pattern : list string) : Env :=
  {| rejects := λ _ _, false;
     answers := answers_with v4 pattern;
     meanwhile := undisturbed |}.

Definition is_store_call (ev : Event) : bool :=
  match ev with
  | Sadd _ _ | Smembers _ | Exists _ | Del _ => true
  | _ => false
  end.

Definition is_record_call (ev : Event) : bool :=
  match ev with AddReverseDns _ _ => true | _ => false end.

(** The resolver, the reverse-DNS lookups, the policy filter and the block
    primitive all fail; the store and the recording of observations work. *)
Definition stormy_env : Env :=
  {| rejects := λ _ ev, negb (is_store_call ev || is_record_call ev);
     answers := answers_with [] [];
     meanwhile := undisturbed |}.

(** The store is unavailable; everything else works. *)
Definition store_down_env (v4 : list string) : Env :=
  {| rejects := λ _ ev, is_store_call ev;
     answers := answers_with v4 [];
     meanwhile := undisturbed |}.

(** The recording of observations into the reverse-DNS cache fails. *)
Definition record_down_env (v4 : list string) : Env :=
  {| rejects := λ _ ev, is_record_call ev;
     answers := answers_with v4 [];
     meanwhile := undisturbed |}.

(** Another workflow holds the lock and releases it during the first
    wait. *)
Definition releasing_env : Env :=
  {| rejects := λ _ _, false;
     answers := answers_with [] [];
     meanwhile := λ w, (false, store w) |}.

Definition idle_world (st : gmap string (gset string)) : World :=
  {| globalLock := false; store := st; trace := [] |}.

Definition busy_world (st : gmap string (gset string)) : World :=
  {| globalLock := true; store := st; trace := [] |}.

(** The block primitive fails for one address only. *)
Definition flaky_block_env (bad : string) : Env :=
  {| rejects := λ _ ev,
       match ev with
       | BlockAddr a _ | UnblockAddr a _ => String.eqb a bad
       | _ => false
       end;
     answers := answers_with [] [];
     meanwhile := undisturbed |}.

(** The three workflows that go through the lock. *)
Inductive Workflow := BlockDomain | UnblockDomain | IncrementalUpdateIPMapping.

Definition invoke (env : Env) (this : DomainBlock) (wf : Workflow) (fuel : nat)
    (domain : string) (options : option Options) : M unit :=
  match wf with
  | BlockDomain => blockDomain env this fuel domain options
  | UnblockDomain => unblockDomain env this fuel domain options
  | IncrementalUpdateIPMapping => incrementalUpdateIPMapping env this fuel domain options
  end.

(** The lock is found free at the invocation or after at most [n] waits. *)
Fixpoint frees_within (env : Env) (n : nat) (w : World) : bool :=
  negb (globalLock w) ||
  match n with
  | O => false
  | S k => frees_within env k (delay env 5000 w).2
  end.

(** [n] reconciliation passes in a row, each invoked once the one before
    has settled. *)
Fixpoint reinforce (env : Env) (this : DomainBlock) (n : nat) (domain : string)
    (options : option Options) (w : World) : World :=
  match n with
  | O => w
  | S k =>
    (incrementalUpdateIPMapping env this 1 domain options
       (reinforce env this k domain options w)).2
  end.

(** The mapping store answers every command. *)
Definition store_available (env : Env) : Prop :=
  ∀ h ev, is_store_call ev = true → rejects env h ev = false.

(** The reverse-DNS cache records every observation. *)
Definition recording_available (env : Env) : Prop :=
  ∀ h ev, is_record_call ev = true → rejects env h ev = false.

(** How a world can evolve into another: by calls and assignments whose
    events satisfy [allowed]. *)
Inductive evolves (env : Env) (allowed : Event → bool) (w : World) : World → Prop :=
| evolves_refl : evolves env allowed w w
| evolves_record ev w' :
    evolves env allowed w w' → allowed ev = true →
    evolves env allowed w (record ev w')
| evolves_sadd key ms w' :
    evolves env allowed w w' → allowed (Sadd key ms) = true →
    evolves env allowed w (set_store (store_sadd key ms (store w')) w')
| evolves_del key w' :
    evolves env allowed w w' → allowed (Del key) = true →
    evolves env allowed w (set_store (store_del key (store w')) w')
| evolves_lock b w' :
    evolves env allowed w w' → allowed (SetGlobalLock b) = true →
    evolves env allowed w (set_globalLock_in b w')
| evolves_wait t w' :
    evolves env allowed w w' → allowed (Delay t) = true →
    evolves env allowed w (delay env t w').2.

(** A run leaves every world satisfying [I] in a world satisfying [I]. *)
Definition preserves {A} (I : World → Prop) (m : M A) : Prop :=
  ∀ w, I w → I (m w).2.

(** A run always settles ([strict = false]) or always fulfils
    ([strict = true]). *)
Definition always (strict : bool) {A} (m : M A) : Prop :=
  ∀ w, ends strict (m w).1 = true.

(** The options an invocation that found the lock held passes to its
    retry. *)
Definition retry_options (wf : Workflow) (options : option Options) : option Options :=
  match wf with
  | UnblockDomain => options
  | _ => Some (options_or_empty options)
  end.

(** The events of a reconciliation pass: [exact] is the match mode and
    [waited] tells whether the pass had to wait for the lock. *)
Definition reconciler_event (exact waited : bool) (ev : Event) : bool :=
  match ev with
  | Resolve4 _ | Resolve6 _ | AddReverseDns _ _ | GetAddressesByDNS _
  | Sadd _ _ | Smembers _ | Exists _ | BlockAddr _ _ | SetGlobalLock _ => true
  | GetAddressesByDNSPattern _ => negb exact
  | Delay _ => waited
  | _ => false
  end.

(** The events of [syncDomainIPMapping]. *)
Definition sync_event (exact : bool) (ev : Event) : bool :=
  match ev with
  | Resolve4 _ | Resolve6 _ | AddReverseDns _ _ | GetAddressesByDNS _
  | Sadd _ _ => true
  | GetAddressesByDNSPattern _ => negb exact
  | _ => false
  end.

Definition is_pattern_lookup (ev : Event) : bool :=
  match ev with GetAddressesByDNSPattern _ => true | _ => false end.

Definition is_removal (ev : Event) : bool :=
  match ev with UnblockAddr _ _ | Del _ => true | _ => false end.

Definition is_sadd (ev : Event) : bool :=
  match ev with Sadd _ _ => true | _ => false end.

(** Two environments that differ at most in what the pattern lookup of the
    reverse-DNS cache does. *)
Definition same_but_pattern (env env' : Env) : Prop :=
  (∀ h ev, is_pattern_lookup ev = false →
     rejects env h ev = rejects env' h ev ∧ answers env h ev = answers env' h ev) ∧
  (∀ w, meanwhile env w = meanwhile env' w).

(** A store with one mapping of three addresses. *)
Definition three_address_store : gmap string (gset string) :=
  {[ "ipmapping:domain:example.com" := {[ "1.2.3.4"; "5.6.7.8"; "9.9.9.9" ]} ]}.

(** A store with one mapping of two addresses. *)
Definition two_address_store : gmap string (gset string) :=
  {[ "ipmapping:domain:example.com" := {[ "1.2.3.4"; "5.6.7.8" ]} ]}.

(** A store with a derived mapping and a set under a caller's own key. *)
Definition custom_key_store : gmap string (gset string) :=
  {[ "ipmapping:domain:example.com" := {[ "1.2.3.4" ]};
     "custom:key" := {[ "9.9.9.9" ]} ]}.

(** What a caught lookup contributes: the answer, or nothing when the
    promise rejects, [.catch((err) => [])]. *)
Definition caught_answer (env : Env) (h : list Event) (ev : Event) : list string :=
  if rejects env h ev then [] else answers env h ev.

(** What a run has issued since the world [w]. *)
Definition issued_since (w w' : World) : list Event :=
  drop (length (trace w)) (trace w').

Definition exact_options : Options :=
  {| exactMatch := Some true; options_externalMapping := None |}.

(** Nothing fails and no lookup has an address to give. *)
Definition silent_env : Env :=
  {| rejects := λ _ _, false;
     answers := λ _ _, [];
     meanwhile := undisturbed |}.

Definition is_block_or_sadd (ev : Event) : bool :=
  match ev with BlockAddr _ _ | Sadd _ _ => true | _ => false end.

(** The world after [example.com], resolving to 1.2.3.4, has been blocked. *)
Definition blocked_world : World :=
  (blockDomain (calm_env ["1.2.3.4"] []) new_DomainBlock 1 "example.com" None
     (idle_world ∅)).2.

(** The deletions of the store fail; everything else works. *)
Definition del_down_env : Env :=
  {| rejects := λ _ ev, match ev with Del _ => true | _ => false end;
     answers := answers_with [] [];
     meanwhile := undisturbed |}.

(** The events of a workflow between taking and releasing the lock. *)
Definition inner_event (ev : Event) : bool :=
  match ev with
  | SetGlobalLock _ | Delay _ => false
  | _ => true
  end.

(** ** Bulk administration *)

(** [getAllIPMappings] and [removeAllIPMappings] go to the store with two
    commands of their own, KEYS and a DEL of many keys; they use neither the
    lock nor any other collaborator. *)
Module Bulk.

Inductive Command :=
| Keys (pattern : string)
| DelKeys (keys : list string).

(** The store and the commands it has received. *)
Record Redis := mkRedis {
  keyspace : gmap string (gset string);
  commands : list Command
}.

Inductive Reply (A : Type) :=
| Fulfilled (a : A)
| Rejected (err : Command).
Arguments Fulfilled {A} a.
Arguments Rejected {A} err.

Definition Admin (A : Type) : Type := Redis → Reply A * Redis.

#[global] Instance Admin_ret : MRet Admin := λ A a r, (Fulfilled a, r).

#[global] Instance Admin_bind : MBind Admin := λ A B f m r,
  match m r with
  | (Fulfilled a, r') => f a r'
  | (Rejected e, r') => (Rejected e, r')
  end.

(** The character [*]. *)
Definition star_char : Ascii.ascii :=
  match "*" with
  | String c _ => c
  | EmptyString => Ascii.zero
  end.

(** Glob matching as KEYS does it, for patterns made of literal characters
    and [*]; the one pattern of the code has no other special character. *)
Fixpoint glob (pattern s : string) : bool :=
  match pattern with
  | EmptyString => match s with EmptyString => true | _ => false end
  | String c pattern' =>
    if Ascii.eqb c star_char then
      (fix star (s : string) : bool :=
         glob pattern' s ||
         match s with
         | EmptyString => false
         | String _ s' => star s'
         end) s
    else
      match s with
      | String d s' => Ascii.eqb c d && glob pattern' s'
      | EmptyString => false
      end
  end.

(** A pattern without [*]. *)
Fixpoint literal (pattern : string) : bool :=
  match pattern with
  | EmptyString => true
  | String c pattern' => negb (Ascii.eqb c star_char) && literal pattern'
  end.

(** KEYS: the keys of the store that match. *)
Definition store_keys (pattern : string) (st : gmap string (gset string)) : list string :=
  filter (λ k, glob pattern k) (elements (dom st)).

(** DEL of many keys: the store without them, and how many there were.
    The server refuses a DEL without keys ([refuses] may say so). *)
Definition store_del_keys (keys : list string) (st : gmap string (gset string))
    : gmap string (gset string) :=
  foldr delete st keys.

Definition store_count (keys : list string) (st : gmap string (gset string)) : nat :=
  length (filter (λ k, is_Some (st !! k)) keys).

Section Calls.

(** [refuses h c]: the command [c], sent after the commands [h], fails. *)
Context (refuses : list Command → Command → bool).

Definition send {A} (c : Command) (value : Redis → A)
    (effect : gmap string (gset string) → gmap string (gset string)) : Admin A :=
  λ r,
    if refuses (commands r) c
    then (Rejected c, {| keyspace := keyspace r; commands := commands r ++ [c] |})
    else (Fulfilled (value r),
          {| keyspace := effect (keyspace r); commands := commands r ++ [c] |}).

Definition rclient_keysAsync (pattern : string) : Admin (list string) :=
  send (Keys pattern) (λ r, store_keys pattern (keyspace r)) id.

Definition rclient_delAsync (keys : list string) : Admin nat :=
  send (DelKeys keys) (λ r, store_count keys (keyspace r)) (store_del_keys keys).

Definition getAllIPMappings : Admin (list string) :=
  list ← rclient_keysAsync "ipmapping:*";
  mret list.

Definition removeAllIPMappings : Admin nat :=
  list ← getAllIPMappings;
  rclient_delAsync list.

End Calls.

(** Every command is answered. *)
Definition willing (h : list Command) (c : Command) : bool := false.

(** KEYS is not answered. *)
Definition keys_down (h : list Command) (c : Command) : bool :=
  match c with Keys _ => true | DelKeys _ => false end.

End Bulk.

(** ** The runs of the whole workflows *)

(** The four calls of [resolveDomain] after the history [h]; a resolver
    failure leaves the family without addresses. *)
Definition resolution_events (env : Env) (domain : string) (h : list Event) : list Event :=
  let v4Addresses := caught_answer env h (Resolve4 domain) in
  let h1 := h ++ [Resolve4 domain; AddReverseDns domain v4Addresses] in
  let v6Addresses := caught_answer env h1 (Resolve6 domain) in
  [Resolve4 domain; AddReverseDns domain v4Addresses;
   Resolve6 domain; AddReverseDns domain v6Addresses].

(** The lookups of the merge step. *)
Definition merge_events (exact : bool) (domain : string) : list Event :=
  GetAddressesByDNS domain ::
  (if exact then [] else [GetAddressesByDNSPattern domain]).

(** The list the merge step builds when it starts after the history [h]. *)
Definition candidates (env : Env) (exact : bool) (domain : string) (h : list Event)
    : list string :=
  let h2 := h ++ resolution_events env domain h in
  let addresses := caught_answer env h2 (GetAddressesByDNS domain) in
  if exact then addresses
  else addresses ++
       caught_answer env (h2 ++ [GetAddressesByDNS domain]) (GetAddressesByDNSPattern domain).

Definition blocked_addr (ev : Event) : option string :=
  match ev with BlockAddr addr _ => Some addr | _ => None end.

Definition unblocked_addr (ev : Event) : option string :=
  match ev with UnblockAddr addr _ => Some addr | _ => None end.

Definition is_timer (ev : Event) : bool :=
  match ev with SetTimeoutIncrementalUpdate _ _ _ => true | _ => false end.

(** The events of a workflow that runs its body for the mapping key [key]:
    no wait, and no store update on another key. *)
Definition touches_only (key : string) (ev : Event) : bool :=
  match ev with
  | Sadd k _ | Del k => bool_decide (k = key)
  | Delay _ => false
  | _ => true
  end.

(** A triple for runs: from a world satisfying [P], a run that fulfils
    with [a] ends in a world satisfying [R a], and a run that rejects or
    stays pending ends in a world satisfying [Q]. *)
Definition hoare {A} (P : World → Prop) (m : M A)
    (R : A → World → Prop) (Q : World → Prop) : Prop :=
  ∀ w, P w →
    match m w with
    | (Fulfilled a, w') => R a w'
    | (_, w') => Q w'
    end.

(** The lock is held by a workflow that never releases it. *)
Definition stuck_env : Env :=
  {| rejects := λ _ _, false;
     answers := answers_with [] [];
     meanwhile := λ w, (true, store w) |}.



Definition not_timer (ev : Event) : bool := negb (is_timer ev).

(** Since the world [w0]: every address that has joined a set of the store
    has joined the set under [key] and has had a block call issued. *)
Definition covered (w0 : World) (key : string) (w : World) : Prop :=
  ∃ evs, trace w = trace w0 ++ evs ∧
    ∀ k addr, addr ∈ mapping k w →
      addr ∈ mapping k w0 ∨
      (k = key ∧ BlockAddr addr "blocked_domain_set" ∈ evs).

(** The events of a reconciliation pass on [key] that found the set
    [present] persisted: a set-add is for one address that is not in
    [present]. *)
Definition adds_only_new (key : string) (present : gset string) (ev : Event) : bool :=
  match ev with
  | Sadd k [addr] => bool_decide (k = key) && bool_decide (addr ∉ present)
  | Sadd _ _ | Del _ | Delay _ => false
  | _ => true
  end.

(** The events that leave the store as it is. *)
Definition reads_only (ev : Event) : bool :=
  match ev with
  | Sadd _ _ | Del _ | Delay _ => false
  | _ => true
  end.

(** ** Two runs of the model *)

(** Blocking a domain that resolves to one address, with an empty
    reverse-DNS cache. *)
Example blockDomain_one_address :
  let run := blockDomain (calm_env ["1.2.3.4"] []) new_DomainBlock 1 "example.com" None
               (idle_world ∅) in
  run.1 = Fulfilled tt ∧
  elements (mapping "ipmapping:domain:example.com" run.2) = ["1.2.3.4"] ∧
  filter is_block_or_sadd (trace run.2)
    = [Sadd "ipmapping:domain:example.com" ["1.2.3.4"];
       BlockAddr "1.2.3.4" "blocked_domain_set"].
Proof. repeat split; vm_compute; reflexivity. Qed.

(** The domain later resolves to a second address: the reconciler adds and
    blocks that address only. *)
Example incrementalUpdateIPMapping_second_address :
  let run := incrementalUpdateIPMapping (calm_env ["1.2.3.4"; "5.6.7.8"] []) new_DomainBlock
               1 "example.com" None blocked_world in
  run.1 = Fulfilled tt ∧
  filter is_block_or_sadd (issued_since blocked_world run.2)
    = [Sadd "ipmapping:domain:example.com" ["5.6.7.8"];
       BlockAddr "5.6.7.8" "blocked_domain_set"] ∧
  filter is_removal (issued_since blocked_world run.2) = [].
Proof. repeat split; vm_compute; reflexivity. Qed.

(** ** The mapping key resolver: properties *)

Lemma truthy_string_Some (s : string) :
  s ≠ "" → truthy_string (Some s) = true.
Proof.
  intros Hs. unfold truthy_string.
  destruct (String.eqb_spec s ""); [contradiction | reflexivity].
Qed.

(** C1, as stated, fails: the resolver does not read [options.externalMapping];
    with the override in the options of a fresh instance it returns the
    derived key. *)
Lemma getDomainIPMappingKey_ignores_options_override :
  let options := {| exactMatch := None; options_externalMapping := Some "custom:key" |} in
  options_externalMapping options = Some "custom:key" ∧
  getDomainIPMappingKey new_DomainBlock "example.com" (Some options)
    = "ipmapping:domain:example.com" ∧
  getDomainIPMappingKey new_DomainBlock "example.com" (Some options) ≠ "custom:key".
Proof. repeat split; discriminate. Qed.

Lemma getDomainIPMappingKey_override_in_effect
    (this : DomainBlock) (domain key : string) (options : option Options) :
  externalMapping this = Some key →
  key ≠ "" →
  getDomainIPMappingKey this domain options = key.
Proof.
  intros Hext Hkey. unfold getDomainIPMappingKey.
  rewrite Hext, truthy_string_Some by exact Hkey. reflexivity.
Qed.

(** C1, amended: when the property [externalMapping] of the instance holds a
    non-empty string, the resolver returns that string verbatim, for every
    domain and whatever the options and their [exactMatch] are. *)
Theorem getDomainIPMappingKey_instance_override
    (this : DomainBlock) (domain key : string) (options : option Options) :
  externalMapping this = Some key →
  key ≠ "" →
  getDomainIPMappingKey this domain options = key.
Proof.
  intros Hext Hkey. by apply getDomainIPMappingKey_override_in_effect.
Qed.

Lemma getDomainIPMappingKey_instance_override_witness :
  getDomainIPMappingKey {| externalMapping := Some "custom:key" |} "example.com"
    (Some {| exactMatch := Some true; options_externalMapping := None |})
  = "custom:key".
Proof.
  apply (getDomainIPMappingKey_instance_override
           {| externalMapping := Some "custom:key" |} "example.com" "custom:key").
  - reflexivity.
  - discriminate.
Defined.

(** C7: without an override in effect the key is
    [ipmapping:exactdomain:<domain>] in exact mode and
    [ipmapping:domain:<domain>] otherwise, also when the options or their
    [exactMatch] are missing; the two keys of a domain differ. *)
Theorem getDomainIPMappingKey_derived (this : DomainBlock) (domain : string) :
  truthy_string (externalMapping this) = false →
  (∀ options, truthy_bool (exactMatch options) = true →
     getDomainIPMappingKey this domain (Some options)
       = "ipmapping:exactdomain:" +:+ domain) ∧
  (∀ options, truthy_bool (exactMatch options) = false →
     getDomainIPMappingKey this domain (Some options)
       = "ipmapping:domain:" +:+ domain) ∧
  getDomainIPMappingKey this domain None = "ipmapping:domain:" +:+ domain ∧
  "ipmapping:exactdomain:" +:+ domain ≠ "ipmapping:domain:" +:+ domain.
Proof.
  intros Hno. unfold getDomainIPMappingKey. rewrite Hno.
  repeat split.
  - intros options Hexact. simpl options_or_empty. rewrite Hexact. reflexivity.
  - intros options Hexact. simpl options_or_empty. rewrite Hexact. reflexivity.
  - simpl. discriminate.
Qed.

Lemma getDomainIPMappingKey_derived_witness :
  getDomainIPMappingKey new_DomainBlock "example.com"
    (Some {| exactMatch := Some true; options_externalMapping := None |})
    = "ipmapping:exactdomain:example.com" ∧
  getDomainIPMappingKey new_DomainBlock "example.com" (Some empty_options)
    = "ipmapping:domain:example.com" ∧
  getDomainIPMappingKey new_DomainBlock "example.com" None
    = "ipmapping:domain:example.com".
Proof.
  destruct (getDomainIPMappingKey_derived new_DomainBlock "example.com" eq_refl)
    as (Hexact & Hwild & Hnone & _).
  split; [| split].
  - exact (Hexact {| exactMatch := Some true; options_externalMapping := None |} eq_refl).
  - exact (Hwild empty_options eq_refl).
  - exact Hnone.
Defined.

(** ** Reasoning about runs *)

Section Runs.

Context (env : Env).

Lemma bind_fulfilled {A B} (m : M A) (f : A → M B) w a w' :
  m w = (Fulfilled a, w') → (m ≫= f) w = f a w'.
Proof. intros Hm. unfold mbind, M_bind. rewrite Hm. reflexivity. Qed.

Lemma call_fulfils {A} ev (value : World → A) effect w :
  rejects env (trace w) ev = false →
  call env ev value effect w = (Fulfilled (value w), effect (record ev w)).
Proof. intros Hok. unfold call. rewrite Hok. reflexivity. Qed.


(** A caught call without effect on the world goes on whatever its
    promise does. *)
Lemma catch_call_unit ev w :
  catch (call env ev (λ _, tt) id) (λ _, tt) w = (Fulfilled tt, record ev w).
Proof. unfold catch, call. destruct (rejects env (trace w) ev); reflexivity. Qed.

Lemma lock_found_free {A} (held free : M A) w :
  globalLock w = false →
  (locked ← get_globalLock; if locked : bool then held else free) w = free w.
Proof. intros Hfree. unfold mbind, M_bind, get_globalLock. rewrite Hfree. reflexivity. Qed.

Lemma lock_found_held {A} (held free : M A) w :
  globalLock w = true →
  (locked ← get_globalLock; if locked : bool then held else free) w = held w.
Proof. intros Hheld. unfold mbind, M_bind, get_globalLock. rewrite Hheld. reflexivity. Qed.

Lemma finally_ext {A} (m m' : M A) handler w :
  m w = m' w → finally m handler w = finally m' handler w.
Proof. intros Heq. unfold finally. rewrite Heq. reflexivity. Qed.

Lemma finally_settled {A} (m : M A) handler w :
  settled (m w).1 = true →
  finally m handler w = ((m w).1, handler (m w).2).
Proof. unfold finally. destruct (m w) as [[a|e|] w']; simpl; intros; done. Qed.


(** The loop of the block applier: one call per address, in order, each
    failure caught. *)
Lemma forEach_caught_calls (mk : string → Event) (l : list string) w :
  forEach l (λ addr, catch (call env (mk addr) (λ _, tt) id) (λ _, tt)) w
  = (Fulfilled tt,
     {| globalLock := globalLock w; store := store w;
        trace := trace w ++ map mk l |}).
Proof.
  revert w. induction l as [| a l IH]; intros w.
  - simpl. unfold mret, M_ret. rewrite app_nil_r. by destruct w.
  - cbn [forEach]. rewrite (bind_fulfilled _ _ _ _ _ (catch_call_unit (mk a) w)).
    rewrite IH. simpl. rewrite <- app_assoc. reflexivity.
Qed.

End Runs.

(** ** The block applier: properties *)

Lemma applyBlock_run
    (env : Env) (this : DomainBlock) (domain : string) (options : option Options)
    (w : World) :
  let key := getDomainIPMappingKey this domain options in
  rejects env (trace w) (Smembers key) = false →
  applyBlock env this domain options w
    = (Fulfilled tt,
       {| globalLock := globalLock w; store := store w;
          trace := trace w ++ Smembers key ::
                     map (λ addr, BlockAddr addr "blocked_domain_set")
                         (elements (mapping key w)) |}).
Proof.
  intros key Hread. unfold applyBlock, getMappedIPAddresses.
  fold key. unfold rclient_smembersAsync, Block_block.
  erewrite bind_fulfilled by (apply call_fulfils; exact Hread).
  rewrite (forEach_caught_calls env (λ addr, BlockAddr addr "blocked_domain_set")).
  simpl. rewrite <- app_assoc. reflexivity.
Qed.

Lemma unapplyBlock_run
    (env : Env) (this : DomainBlock) (domain : string) (options : option Options)
    (w : World) :
  let key := getDomainIPMappingKey this domain options in
  rejects env (trace w) (Smembers key) = false →
  unapplyBlock env this domain options w
    = (Fulfilled tt,
       {| globalLock := globalLock w; store := store w;
          trace := trace w ++ Smembers key ::
                     map (λ addr, UnblockAddr addr "blocked_domain_set")
                         (elements (mapping key w)) |}).
Proof.
  intros key Hread. unfold unapplyBlock, getMappedIPAddresses.
  fold key. unfold rclient_smembersAsync, Block_unblock.
  erewrite bind_fulfilled by (apply call_fulfils; exact Hread).
  rewrite (forEach_caught_calls env (λ addr, UnblockAddr addr "blocked_domain_set")).
  simpl. rewrite <- app_assoc. reflexivity.
Qed.

(** C5: when the mapping is read, [applyBlock] issues one block call per
    address of the mapping and [unapplyBlock] one unblock call per address,
    whatever the block primitive does: a failure for one address is caught
    and the remaining addresses still get their calls. *)
Theorem applyBlock_best_effort
    (env : Env) (this : DomainBlock) (domain : string) (options : option Options)
    (w : World) :
  let key := getDomainIPMappingKey this domain options in
  rejects env (trace w) (Smembers key) = false →
  applyBlock env this domain options w
    = (Fulfilled tt,
       {| globalLock := globalLock w; store := store w;
          trace := trace w ++ Smembers key ::
                     map (λ addr, BlockAddr addr "blocked_domain_set")
                         (elements (mapping key w)) |}) ∧
  unapplyBlock env this domain options w
    = (Fulfilled tt,
       {| globalLock := globalLock w; store := store w;
          trace := trace w ++ Smembers key ::
                     map (λ addr, UnblockAddr addr "blocked_domain_set")
                         (elements (mapping key w)) |}).
Proof.
  intros key Hread. split.
  - by apply applyBlock_run.
  - by apply unapplyBlock_run.
Qed.

Lemma applyBlock_best_effort_witness :
  rejects (flaky_block_env "5.6.7.8") []
    (BlockAddr "5.6.7.8" "blocked_domain_set") = true ∧
  trace (applyBlock (flaky_block_env "5.6.7.8") new_DomainBlock "example.com" None
           (idle_world three_address_store)).2
  = Smembers "ipmapping:domain:example.com" ::
      map (λ addr, BlockAddr addr "blocked_domain_set")
          (elements (mapping "ipmapping:domain:example.com"
                       (idle_world three_address_store))).
Proof.
  split; [reflexivity |].
  rewrite (proj1 (applyBlock_best_effort (flaky_block_env "5.6.7.8") new_DomainBlock
                    "example.com" None (idle_world three_address_store) eq_refl)).
  reflexivity.
Defined.

(** ** Unblocking *)

(** The run of [unblockDomain] that finds the lock free, on an available
    store. *)
Lemma unblockDomain_run
    (env : Env) (this : DomainBlock) (fuel : nat) (domain : string)
    (options : option Options) (w : World) :
  let key := getDomainIPMappingKey this domain options in
  let owned := negb (truthy_string (externalMapping this)) in
  globalLock w = false →
  store_available env →
  unblockDomain env this (S fuel) domain options w
    = (Fulfilled tt,
       {| globalLock := false;
          store := if owned then store_del key (store w) else store w;
          trace := trace w ++ [SetGlobalLock true; Smembers key] ++
                   map (λ addr, UnblockAddr addr "blocked_domain_set")
                       (elements (mapping key w)) ++
                   (if owned then [Del key] else []) ++
                   [RemovePolicyFilterEntry domain;
                    EmitEvent "ReloadDNSRule" "DNSMASQ filter rule is updated" "FireMain";
                    SetGlobalLock false] |}).
Proof.
  intros key owned Hfree Hstore. cbn [unblockDomain].
  erewrite finally_ext by (apply lock_found_free; exact Hfree).
  unfold finally.
  erewrite bind_fulfilled by reflexivity.
  erewrite bind_fulfilled by (apply unapplyBlock_run; apply Hstore; reflexivity).
  fold key owned. unfold removeDomainIPMapping. fold key.
  unfold rclient_delAsync, dnsmasq_removePolicyFilterEntry, sem_emitEvent_ReloadDNSRule.
  destruct owned.
  - erewrite bind_fulfilled by (apply call_fulfils; apply Hstore; reflexivity).
    erewrite bind_fulfilled by apply catch_call_unit.
    unfold emit, set_globalLock_in, set_store, record, mapping. simpl.
    repeat rewrite <- app_assoc. reflexivity.
  - erewrite bind_fulfilled by reflexivity.
    erewrite bind_fulfilled by apply catch_call_unit.
    unfold emit, set_globalLock_in, set_store, record, mapping. simpl.
    repeat rewrite <- app_assoc. reflexivity.
Qed.


(** C8: with a mapping of two addresses and no override in effect,
    [unblockDomain], finding the lock free and the store available, issues
    the two unblock calls, then deletes the mapping key, then removes the
    DNS policy filter entry of the domain. *)
Theorem unblockDomain_order
    (env : Env) (this : DomainBlock) (fuel : nat) (domain : string)
    (options : option Options) (w : World) (a1 a2 : string) :
  let key := getDomainIPMappingKey this domain options in
  truthy_string (externalMapping this) = false →
  store_smembers key (store w) = [a1; a2] →
  globalLock w = false →
  store_available env →
  unblockDomain env this (S fuel) domain options w
    = (Fulfilled tt,
       {| globalLock := false;
          store := store_del key (store w);
          trace := trace w ++
            [SetGlobalLock true;
             Smembers key;
             UnblockAddr a1 "blocked_domain_set";
             UnblockAddr a2 "blocked_domain_set";
             Del key;
             RemovePolicyFilterEntry domain;
             EmitEvent "ReloadDNSRule" "DNSMASQ filter rule is updated" "FireMain";
             SetGlobalLock false] |}).
Proof.
  intros key Hno Hmapping Hfree Hstore.
  rewrite unblockDomain_run by assumption. fold key.
  unfold store_smembers in Hmapping. unfold mapping.
  rewrite Hno, Hmapping. reflexivity.
Qed.

Lemma unblockDomain_order_witness :
  unblockDomain (calm_env [] []) new_DomainBlock 1 "example.com" None
    (idle_world two_address_store)
    = (Fulfilled tt,
       {| globalLock := false;
          store := store_del "ipmapping:domain:example.com" two_address_store;
          trace :=
            [SetGlobalLock true;
             Smembers "ipmapping:domain:example.com";
             UnblockAddr "5.6.7.8" "blocked_domain_set";
             UnblockAddr "1.2.3.4" "blocked_domain_set";
             Del "ipmapping:domain:example.com";
             RemovePolicyFilterEntry "example.com";
             EmitEvent "ReloadDNSRule" "DNSMASQ filter rule is updated" "FireMain";
             SetGlobalLock false] |}).
Proof.
  apply (unblockDomain_order (calm_env [] []) new_DomainBlock 0 "example.com" None
           (idle_world two_address_store) "5.6.7.8" "1.2.3.4").
  - reflexivity.
  - vm_compute. reflexivity.
  - reflexivity.
  - intros h ev _. reflexivity.
Defined.

(** C3, as stated, fails: an override carried by the options is not read.
    The addresses under the caller's key get no unblock call, and the key
    the workflow resolved is deleted from the store. *)
Lemma unblockDomain_ignores_options_override :
  let options := Some {| exactMatch := None; options_externalMapping := Some "custom:key" |} in
  let key := getDomainIPMappingKey new_DomainBlock "example.com" options in
  let w := idle_world custom_key_store in
  let w' := (unblockDomain (calm_env [] []) new_DomainBlock 1 "example.com" options w).2 in
  elements (mapping "custom:key" w) = ["9.9.9.9"] ∧
  (UnblockAddr "9.9.9.9" "blocked_domain_set" ∉ trace w') ∧
  elements (mapping key w) = ["1.2.3.4"] ∧
  Del key ∈ trace w' ∧
  store w' !! key = None.
Proof.
  repeat split.
  - apply (bool_decide_unpack _). vm_compute. reflexivity.
  - apply (bool_decide_unpack _). vm_compute. reflexivity.
Qed.

(** C3, amended: when the property [externalMapping] of the instance holds a
    non-empty string, [unblockDomain], finding the lock free and the store
    available, issues an unblock call for each address under that key and no
    delete: the store is left as it was. *)
Theorem unblockDomain_keeps_instance_mapping
    (env : Env) (this : DomainBlock) (fuel : nat) (domain key : string)
    (options : option Options) (w : World) :
  externalMapping this = Some key →
  key ≠ "" →
  globalLock w = false →
  store_available env →
  unblockDomain env this (S fuel) domain options w
    = (Fulfilled tt,
       {| globalLock := false;
          store := store w;
          trace := trace w ++ [SetGlobalLock true; Smembers key] ++
                   map (λ addr, UnblockAddr addr "blocked_domain_set")
                       (elements (mapping key w)) ++
                   [RemovePolicyFilterEntry domain;
                    EmitEvent "ReloadDNSRule" "DNSMASQ filter rule is updated" "FireMain";
                    SetGlobalLock false] |}).
Proof.
  intros Hext Hkey Hfree Hstore.
  rewrite unblockDomain_run by assumption.
  rewrite (getDomainIPMappingKey_override_in_effect this domain key options Hext Hkey).
  rewrite Hext, truthy_string_Some by exact Hkey. reflexivity.
Qed.

Lemma unblockDomain_keeps_instance_mapping_witness :
  store (unblockDomain (calm_env [] []) {| externalMapping := Some "custom:key" |} 1
           "example.com" None (idle_world custom_key_store)).2
  = custom_key_store.
Proof.
  rewrite (unblockDomain_keeps_instance_mapping (calm_env [] [])
             {| externalMapping := Some "custom:key" |} 0 "example.com" "custom:key"
             None (idle_world custom_key_store) eq_refl).
  - reflexivity.
  - discriminate.
  - reflexivity.
  - intros h ev _. reflexivity.
Defined.

(** ** Invariants of runs *)

Section Rules.

Context (env : Env).

Lemma preserves_ret {A} (I : World → Prop) (a : A) : preserves I (mret a : M A).
Proof. intros w Hw. exact Hw. Qed.

Lemma preserves_bind {A B} (I : World → Prop) (m : M A) (f : A → M B) :
  preserves I m → (∀ a, preserves I (f a)) → preserves I (m ≫= f).
Proof.
  intros Hm Hf w Hw. specialize (Hm w Hw). unfold mbind, M_bind.
  destruct (m w) as [[a|e|] w']; simpl in *; [by apply Hf | done | done].
Qed.

Lemma preserves_catch {A} (I : World → Prop) (m : M A) handler :
  preserves I m → preserves I (catch m handler).
Proof.
  intros Hm w Hw. specialize (Hm w Hw). unfold catch.
  destruct (m w) as [[a|e|] w']; done.
Qed.

Lemma preserves_finally {A} (I : World → Prop) (m : M A) handler :
  preserves I m → (∀ w, I w → I (handler w)) → preserves I (finally m handler).
Proof.
  intros Hm Hh w Hw. specialize (Hm w Hw). unfold finally.
  destruct (m w) as [[a|e|] w']; simpl in *; auto.
Qed.

Lemma preserves_if {A} (I : World → Prop) (b : bool) (m1 m2 : M A) :
  preserves I m1 → preserves I m2 → preserves I (if b then m1 else m2).
Proof. by destruct b. Qed.

Lemma preserves_forEach {A} (I : World → Prop) (l : list A) f :
  (∀ a, preserves I (f a)) → preserves I (forEach l f).
Proof.
  intros Hf. induction l as [| a l IH]; cbn [forEach].
  - apply preserves_ret.
  - apply preserves_bind; [apply Hf | intros _; exact IH].
Qed.


Section Evolution.

Context (allowed : Event → bool) (w0 : World).

Lemma call_evolves {A} ev (value : World → A) :
  allowed ev = true → preserves (evolves env allowed w0) (call env ev value id).
Proof.
  intros Hev w Hw. unfold call.
  destruct (rejects env (trace w) ev); simpl; by apply evolves_record.
Qed.

Lemma lookup_call_evolves ev :
  allowed ev = true → preserves (evolves env allowed w0) (lookup_call env ev).
Proof. intros Hev w Hw. unfold lookup_call. by apply call_evolves. Qed.

Lemma saddAsync_evolves key ms :
  allowed (Sadd key ms) = true →
  preserves (evolves env allowed w0) (rclient_saddAsync env key ms).
Proof.
  intros Hev w Hw. unfold rclient_saddAsync, call.
  destruct (rejects env (trace w) (Sadd key ms)); simpl.
  - by apply evolves_record.
  - apply (evolves_sadd env allowed w0 key ms (record (Sadd key ms) w)); [| done].
    by apply evolves_record.
Qed.

Lemma delAsync_evolves key :
  allowed (Del key) = true →
  preserves (evolves env allowed w0) (rclient_delAsync env key).
Proof.
  intros Hev w Hw. unfold rclient_delAsync, call.
  destruct (rejects env (trace w) (Del key)); simpl.
  - by apply evolves_record.
  - apply (evolves_del env allowed w0 key (record (Del key) w)); [| done].
    by apply evolves_record.
Qed.

Lemma emit_evolves ev :
  allowed ev = true → preserves (evolves env allowed w0) (emit ev).
Proof. intros Hev w Hw. by apply evolves_record. Qed.

Lemma set_globalLock_evolves b :
  allowed (SetGlobalLock b) = true →
  preserves (evolves env allowed w0) (set_globalLock b).
Proof. intros Hev w Hw. by apply evolves_lock. Qed.

Lemma delay_evolves t :
  allowed (Delay t) = true → preserves (evolves env allowed w0) (delay env t).
Proof. intros Hev w Hw. by apply evolves_wait. Qed.

End Evolution.

Lemma evolves_weaken (allowed allowed' : Event → bool) w w' :
  (∀ ev, allowed ev = true → allowed' ev = true) →
  evolves env allowed w w' → evolves env allowed' w w'.
Proof.
  intros Hsub Hev. induction Hev.
  - apply evolves_refl.
  - apply evolves_record; auto.
  - apply evolves_sadd; auto.
  - apply evolves_del; auto.
  - apply evolves_lock; auto.
  - apply evolves_wait; auto.
Qed.

Lemma evolves_trans allowed w1 w2 w3 :
  evolves env allowed w1 w2 → evolves env allowed w2 w3 → evolves env allowed w1 w3.
Proof.
  intros H12 H23. induction H23.
  - exact H12.
  - apply evolves_record; auto.
  - apply evolves_sadd; auto.
  - apply evolves_del; auto.
  - apply evolves_lock; auto.
  - apply evolves_wait; auto.
Qed.

(** What a world has evolved into has the old trace as a prefix, and every
    event issued since is an allowed one. *)
Lemma evolves_trace allowed w w' :
  evolves env allowed w w' →
  ∃ evs, trace w' = trace w ++ evs ∧ Forall (λ ev, allowed ev = true) evs.
Proof.
  intros Hev. induction Hev as [| ev w' _ [evs [Heq Hall]] Hok
                                | key ms w' _ IH _ | key w' _ IH _
                                | b w' _ [evs [Heq Hall]] Hok
                                | t w' _ [evs [Heq Hall]] Hok].
  - exists []. split; [by rewrite app_nil_r | constructor].
  - exists (evs ++ [ev]). simpl. rewrite Heq, app_assoc. split; [done |].
    apply Forall_app. split; [done | by constructor].
  - exact IH.
  - exact IH.
  - exists (evs ++ [SetGlobalLock b]). simpl. rewrite Heq, app_assoc. split; [done |].
    apply Forall_app. split; [done | by constructor].
  - exists (evs ++ [Delay t]). simpl. rewrite Heq, app_assoc. split; [done |].
    apply Forall_app. split; [done | by constructor].
Qed.

Lemma issued_since_app w w' evs :
  trace w' = trace w ++ evs → issued_since w w' = evs.
Proof. intros Heq. unfold issued_since. rewrite Heq. apply drop_app_length. Qed.

Lemma evolves_issued allowed w w' :
  evolves env allowed w w' →
  Forall (λ ev, allowed ev = true) (issued_since w w').
Proof.
  intros Hev. destruct (evolves_trace allowed w w' Hev) as [evs [Heq Hall]].
  by rewrite (issued_since_app w w' evs Heq).
Qed.

Lemma store_sadd_grows key ms st k :
  members k st ⊆ members k (store_sadd key ms st).
Proof.
  unfold store_sadd. destruct ms as [| m ms]; [done |].
  unfold members at 2. destruct (decide (key = k)) as [-> | Hne].
  - rewrite lookup_insert_eq. simpl. set_solver.
  - rewrite lookup_insert_ne by done. done.
Qed.

(** Without deletions and without waiting, the sets of the store only
    grow. *)
Lemma evolves_store_grows allowed w w' :
  (∀ key, allowed (Del key) = false) →
  (∀ t, allowed (Delay t) = false) →
  evolves env allowed w w' →
  ∀ key, mapping key w ⊆ mapping key w'.
Proof.
  intros Hdel Hwait Hev key. induction Hev as [| ev w' _ IH _
                                | k ms w' _ IH _ | k w' _ _ Hok
                                | b w' _ IH _
                                | t w' _ _ Hok].
  - done.
  - exact IH.
  - etransitivity; [exact IH |]. apply store_sadd_grows.
  - rewrite Hdel in Hok. discriminate.
  - exact IH.
  - rewrite Hwait in Hok. discriminate.
Qed.

End Rules.

(** ** The events of the resolution, of the merge and of the reconciler *)

Ltac evolve :=
  repeat first
    [ apply preserves_ret
    | apply preserves_bind; [| intros ?]
    | apply preserves_catch
    | apply preserves_forEach; intros ?
    | apply preserves_if
    | apply lookup_call_evolves; reflexivity
    | apply call_evolves; reflexivity
    | apply saddAsync_evolves; reflexivity
    | apply emit_evolves; reflexivity
    | apply set_globalLock_evolves; reflexivity ].

Lemma sync_event_exact_least exact ev :
  sync_event true ev = true → sync_event exact ev = true.
Proof. destruct ev; simpl; done. Qed.

Lemma sync_event_reconciler exact waited ev :
  sync_event true ev = true → reconciler_event exact waited ev = true.
Proof. destruct ev; simpl; done. Qed.

Lemma reconciler_event_waited exact waited ev :
  reconciler_event exact waited ev = true → reconciler_event exact true ev = true.
Proof. destruct ev; simpl; done. Qed.

Lemma resolveDomain_evolves env allowed w0 domain :
  (∀ ev, sync_event true ev = true → allowed ev = true) →
  preserves (evolves env allowed w0) (resolveDomain env domain).
Proof.
  intros Hallowed. unfold resolveDomain.
  repeat first
    [ apply preserves_ret
    | apply preserves_bind; [| intros ?]
    | apply preserves_catch
    | apply lookup_call_evolves; apply Hallowed; reflexivity
    | apply call_evolves; apply Hallowed; reflexivity ].
Qed.

Lemma syncDomainIPMapping_evolves env this domain options w :
  evolves env (sync_event (truthy_bool (exactMatch (options_or_empty options)))) w
    (syncDomainIPMapping env this domain options w).2.
Proof.
  unfold syncDomainIPMapping.
  destruct (truthy_bool (exactMatch (options_or_empty options))); cbn [negb].
  - apply (preserves_bind (evolves env (sync_event true) w)).
    + apply resolveDomain_evolves. auto.
    + intros _. evolve.
    + apply evolves_refl.
  - apply (preserves_bind (evolves env (sync_event false) w)).
    + apply resolveDomain_evolves. apply sync_event_exact_least.
    + intros _. evolve.
    + apply evolves_refl.
Qed.


Lemma incrementalUpdateIPMapping_evolves env this fuel domain options w :
  evolves env
    (reconciler_event (truthy_bool (exactMatch (options_or_empty options))) (globalLock w)) w
    (incrementalUpdateIPMapping env this fuel domain options w).2.
Proof.
  revert options w. induction fuel as [| fuel IH]; intros options w.
  - apply evolves_refl.
  - cbn [incrementalUpdateIPMapping].
    set (exact := truthy_bool (exactMatch (options_or_empty options))).
    destruct (globalLock w) eqn:Hlock.
    + erewrite finally_ext by (apply lock_found_held; exact Hlock).
      apply (preserves_finally (evolves env (reconciler_event exact true) w));
        [| intros w' Hw'; by apply evolves_lock | apply evolves_refl].
      apply preserves_bind; [apply preserves_ret | intros _].
      apply preserves_bind; [by apply delay_evolves | intros _].
      intros w1 Hw1. eapply evolves_trans; [exact Hw1 |].
      eapply evolves_weaken; [apply reconciler_event_waited |].
      apply (IH (Some (options_or_empty options)) w1).
    + erewrite finally_ext by (apply lock_found_free; exact Hlock).
      apply (preserves_finally (evolves env (reconciler_event exact false) w));
        [| intros w' Hw'; by apply evolves_lock | apply evolves_refl].
      apply preserves_bind; [by apply set_globalLock_evolves | intros _].
      apply preserves_bind; [by apply call_evolves | intros existing].
      apply preserves_if; [apply preserves_ret |].
      apply preserves_bind;
        [apply resolveDomain_evolves; apply sync_event_reconciler | intros _].
      unfold getMappedIPAddresses, rclient_smembersAsync.
      destruct exact; cbn [negb]; evolve.
Qed.

(** ** Settling *)

Section Ending.

Context (env : Env) (strict : bool).

Lemma always_ret {A} (a : A) : always strict (mret a : M A).
Proof. intros w. reflexivity. Qed.

Lemma always_bind {A B} (m : M A) (f : A → M B) :
  always strict m → (∀ a, always strict (f a)) → always strict (m ≫= f).
Proof.
  intros Hm Hf w. specialize (Hm w). unfold mbind, M_bind.
  destruct (m w) as [[a|e|] w']; simpl in *; [apply Hf | done | done].
Qed.

Lemma always_catch {A} (m : M A) handler :
  always false m → always strict (catch m handler).
Proof.
  intros Hm w. specialize (Hm w). unfold catch.
  destruct (m w) as [[a|e|] w']; done.
Qed.

Lemma always_finally {A} (m : M A) handler :
  always strict m → always strict (finally m handler).
Proof.
  intros Hm w. specialize (Hm w). unfold finally.
  destruct (m w) as [[a|e|] w']; done.
Qed.

Lemma always_if {A} (b : bool) (m1 m2 : M A) :
  always strict m1 → always strict m2 → always strict (if b then m1 else m2).
Proof. by destruct b. Qed.

Lemma always_forEach {A} (l : list A) f :
  (∀ a, always strict (f a)) → always strict (forEach l f).
Proof.
  intros Hf. induction l as [| a l IH]; cbn [forEach].
  - apply always_ret.
  - apply always_bind; [apply Hf | intros _; exact IH].
Qed.

Lemma always_call {A} ev (value : World → A) effect :
  (strict = true → ∀ h, rejects env h ev = false) →
  always strict (call env ev value effect).
Proof.
  intros Hok w. unfold call.
  destruct (rejects env (trace w) ev) eqn:Hrej; [| reflexivity].
  simpl. destruct strict; [| reflexivity].
  rewrite Hok in Hrej by reflexivity. discriminate.
Qed.

Lemma always_lookup_call ev :
  (strict = true → ∀ h, rejects env h ev = false) →
  always strict (lookup_call env ev).
Proof. intros Hok w. unfold lookup_call. by apply always_call. Qed.

Lemma always_emit ev : always strict (emit ev).
Proof. intros w. reflexivity. Qed.

Lemma always_set_globalLock b : always strict (set_globalLock b).
Proof. intros w. reflexivity. Qed.


End Ending.

Lemma settles_call {A} env ev (value : World → A) effect :
  always false (call env ev value effect).
Proof. apply always_call. discriminate. Qed.

Lemma settles_lookup_call env ev : always false (lookup_call env ev).
Proof. apply always_lookup_call. discriminate. Qed.

Section Availability.

Context (env : Env) (this : DomainBlock) (strict : bool).
Hypothesis available :
  strict = true → store_available env ∧ recording_available env.

Lemma available_call ev :
  is_store_call ev || is_record_call ev = true →
  strict = true → ∀ h, rejects env h ev = false.
Proof.
  intros Hev Hstrict h. destruct (available Hstrict) as [Hstore Hrecord].
  apply orb_true_iff in Hev as [Hev | Hev]; [by apply Hstore | by apply Hrecord].
Qed.

Ltac ending :=
  repeat first
    [ apply always_ret
    | apply always_bind; [| intros ?]
    | apply always_catch; first [apply settles_call | apply settles_lookup_call]
    | apply always_forEach; intros ?
    | apply always_if
    | apply always_call; apply available_call; reflexivity
    | apply always_emit
    | apply always_set_globalLock ].

Lemma resolveDomain_ends domain : always strict (resolveDomain env domain).
Proof. unfold resolveDomain. ending. Qed.

Lemma syncDomainIPMapping_ends domain options :
  always strict (syncDomainIPMapping env this domain options).
Proof.
  unfold syncDomainIPMapping.
  apply always_bind; [apply resolveDomain_ends | intros _]. ending.
Qed.

Lemma applyBlock_ends domain options :
  always strict (applyBlock env this domain options).
Proof. unfold applyBlock, getMappedIPAddresses. ending. Qed.

Lemma unapplyBlock_ends domain options :
  always strict (unapplyBlock env this domain options).
Proof. unfold unapplyBlock, getMappedIPAddresses. ending. Qed.

(** An invocation that finds the lock free ends. *)
Lemma invoke_ends wf fuel domain options w :
  globalLock w = false →
  ends strict (invoke env this wf (S fuel) domain options w).1 = true.
Proof.
  intros Hfree. destruct wf; cbn [invoke blockDomain unblockDomain incrementalUpdateIPMapping];
    (erewrite finally_ext by (apply lock_found_free; exact Hfree));
    apply always_finally.
  - apply always_bind; [apply always_set_globalLock | intros _].
    apply always_bind; [ending | intros _].
    apply always_bind; [ending | intros _].
    apply always_bind; [apply syncDomainIPMapping_ends | intros _].
    apply always_bind; [apply applyBlock_ends | intros _].
    ending.
  - apply always_bind; [apply always_set_globalLock | intros _].
    apply always_bind; [apply unapplyBlock_ends | intros _].
    unfold removeDomainIPMapping. ending.
  - apply always_bind; [apply always_set_globalLock | intros _].
    apply always_bind; [ending | intros existing].
    apply always_if; [apply always_ret |].
    apply always_bind; [apply resolveDomain_ends | intros _].
    unfold getMappedIPAddresses. ending.
Qed.

End Availability.

(** ** Failures inside a workflow *)

(** C2, as stated, fails: a failure of the mapping store is not caught.
    With the store unavailable each of the three workflows rejects with the
    error of its first store command; and [blockDomain] rejects when the
    recording of the resolved addresses fails. *)
Lemma store_failure_rejects_workflow :
  (blockDomain (store_down_env ["1.2.3.4"]) new_DomainBlock 1 "example.com" None
     (idle_world ∅)).1
    = Rejected (Sadd "ipmapping:domain:example.com" ["1.2.3.4"]) ∧
  (unblockDomain (store_down_env []) new_DomainBlock 1 "example.com" None
     (idle_world two_address_store)).1
    = Rejected (Smembers "ipmapping:domain:example.com") ∧
  (incrementalUpdateIPMapping (store_down_env []) new_DomainBlock 1 "example.com" None
     (idle_world two_address_store)).1
    = Rejected (Exists "ipmapping:domain:example.com") ∧
  (blockDomain (record_down_env ["1.2.3.4"]) new_DomainBlock 1 "example.com" None
     (idle_world ∅)).1
    = Rejected (AddReverseDns "example.com" ["1.2.3.4"]).
Proof. repeat split; vm_compute; reflexivity. Qed.

(** C2, amended: a failure of the DNS resolution, of a reverse-DNS lookup,
    of the DNS policy filter or of the block primitive is caught and never
    aborts the workflow: as long as the commands of the mapping store and
    the recording of observations succeed, each of the three workflows,
    finding the lock free, fulfils whatever the other collaborators do. *)
Theorem caught_failures_never_abort
    (env : Env) (this : DomainBlock) (wf : Workflow) (fuel : nat) (domain : string)
    (options : option Options) (w : World) :
  store_available env →
  recording_available env →
  globalLock w = false →
  fulfilled (invoke env this wf (S fuel) domain options w).1 = true.
Proof.
  intros Hstore Hrecord Hfree.
  by apply (invoke_ends env this true).
Qed.

Lemma caught_failures_never_abort_witness :
  rejects stormy_env [] (Resolve4 "example.com") = true ∧
  rejects stormy_env [] (BlockAddr "1.2.3.4" "blocked_domain_set") = true ∧
  fulfilled (invoke stormy_env new_DomainBlock BlockDomain 1 "example.com" None
               (idle_world two_address_store)).1 = true.
Proof.
  split; [reflexivity | split; [reflexivity |]].
  apply (caught_failures_never_abort stormy_env new_DomainBlock BlockDomain 0
           "example.com" None (idle_world two_address_store)).
  - intros h ev Hev. simpl. rewrite Hev. reflexivity.
  - intros h ev Hev. simpl. rewrite Hev. apply negb_false_iff, orb_true_r.
  - reflexivity.
Defined.

(** ** The lock *)

Lemma invoke_pending env this wf domain options w :
  invoke env this wf 0 domain options w = (Pending, w).
Proof. by destruct wf. Qed.

(** An invocation that finds the lock held waits, retries, and runs its
    cleanup on what the retry has left. *)
Lemma invoke_deferred env this wf fuel domain options w :
  globalLock w = true →
  invoke env this wf (S fuel) domain options w
    = finally (invoke env this wf fuel domain (retry_options wf options))
        (set_globalLock_in false) (delay env 5000 w).2.
Proof.
  intros Hheld. destruct wf;
    cbn [invoke blockDomain unblockDomain incrementalUpdateIPMapping retry_options];
    (erewrite finally_ext by (apply lock_found_held; exact Hheld)); reflexivity.
Qed.

Lemma invoke_settles env this wf fuel domain options w :
  frees_within env fuel w = true →
  settled (invoke env this wf (S fuel) domain options w).1 = true.
Proof.
  revert options w. induction fuel as [| fuel IH]; intros options w Hfrees.
  - simpl in Hfrees. rewrite orb_false_r in Hfrees. apply negb_true_iff in Hfrees.
    by apply (invoke_ends env this false).
  - destruct (globalLock w) eqn:Hlock.
    + cbn [frees_within] in Hfrees. rewrite Hlock in Hfrees. simpl in Hfrees.
      rewrite invoke_deferred by exact Hlock.
      rewrite finally_settled; by apply IH.
    + by apply (invoke_ends env this false).
Qed.

Lemma last_snoc_event (l : list Event) ev : last (l ++ [ev]) = Some ev.
Proof. apply last_snoc. Qed.

Lemma invoke_settled_released env this wf fuel domain options w :
  settled (invoke env this wf fuel domain options w).1 = true →
  globalLock (invoke env this wf fuel domain options w).2 = false ∧
  last (trace (invoke env this wf fuel domain options w).2) = Some (SetGlobalLock false).
Proof.
  destruct fuel as [| fuel].
  - rewrite invoke_pending. discriminate.
  - assert (∃ m, ∀ w, invoke env this wf (S fuel) domain options w
                       = finally m (set_globalLock_in false) w) as [m Hm].
    { destruct wf; eexists; intros; reflexivity. }
    rewrite Hm. unfold finally.
    destruct (m w) as [[a|e|] w']; simpl; intros Hs;
      [split; [done | apply last_snoc_event] ..| discriminate].
Qed.

(** C9: an invocation of [blockDomain], [unblockDomain] or
    [incrementalUpdateIPMapping] settles once the lock is found free, at the
    invocation or at one of its retries; when it settles the last thing it
    has done is to assign false to the lock flag; and an invocation that
    found the lock held, and never acquired it, assigns false all the same,
    after the retry it deferred to has settled. *)
Theorem invocation_resets_lock
    (env : Env) (this : DomainBlock) (wf : Workflow) (fuel : nat) (domain : string)
    (options : option Options) (w : World) :
  (frees_within env fuel w = true →
   settled (invoke env this wf (S fuel) domain options w).1 = true) ∧
  (settled (invoke env this wf (S fuel) domain options w).1 = true →
   globalLock (invoke env this wf (S fuel) domain options w).2 = false ∧
   last (trace (invoke env this wf (S fuel) domain options w).2)
     = Some (SetGlobalLock false)) ∧
  (globalLock w = true →
   let retry := invoke env this wf fuel domain (retry_options wf options)
                  (delay env 5000 w).2 in
   settled retry.1 = true →
   invoke env this wf (S fuel) domain options w
     = (retry.1, set_globalLock_in false retry.2)).
Proof.
  split; [| split].
  - apply invoke_settles.
  - apply invoke_settled_released.
  - intros Hheld retry Hsettled. rewrite invoke_deferred by exact Hheld.
    by apply finally_settled.
Qed.

Lemma invocation_resets_lock_witness :
  let w := busy_world ∅ in
  let run := invoke releasing_env new_DomainBlock BlockDomain 2 "example.com" None w in
  let retry := invoke releasing_env new_DomainBlock BlockDomain 1 "example.com"
                 (Some empty_options) (delay releasing_env 5000 w).2 in
  settled run.1 = true ∧
  globalLock run.2 = false ∧
  last (trace run.2) = Some (SetGlobalLock false) ∧
  run = (retry.1, set_globalLock_in false retry.2) ∧
  last (trace retry.2) = Some (SetGlobalLock false).
Proof.
  intros w run retry.
  destruct (invocation_resets_lock releasing_env new_DomainBlock BlockDomain 1
              "example.com" None w) as (Hsettles & Hreset & Hdeferred).
  specialize (Hsettles eq_refl). destruct (Hreset Hsettles) as [Hlock Hlast].
  split; [exact Hsettles | split; [exact Hlock | split; [exact Hlast |]]].
  split; [exact (Hdeferred eq_refl eq_refl) | vm_compute; reflexivity].
Defined.

(** ** The reconciler only adds *)

Lemma reconciler_event_not_removal exact waited ev :
  reconciler_event exact waited ev = true → is_removal ev = false.
Proof. destruct ev; simpl; done. Qed.

Lemma reconciler_event_not_pattern waited ev :
  reconciler_event true waited ev = true → is_pattern_lookup ev = false.
Proof. destruct ev; simpl; done. Qed.

Lemma sync_event_not_pattern ev :
  sync_event true ev = true → is_pattern_lookup ev = false.
Proof. destruct ev; simpl; done. Qed.

(** A pass that finds the lock free leaves every set of the store at least
    as large as it found it. *)
Lemma pass_grows env this fuel domain options w key :
  globalLock w = false →
  mapping key w ⊆ mapping key (incrementalUpdateIPMapping env this (S fuel) domain options w).2.
Proof.
  intros Hfree.
  pose proof (incrementalUpdateIPMapping_evolves env this (S fuel) domain options w) as Hev.
  rewrite Hfree in Hev.
  by apply (evolves_store_grows env _ _ _ (λ _, eq_refl) (λ _, eq_refl) Hev).
Qed.

Lemma pass_resets_lock env this domain options w :
  globalLock w = false →
  globalLock (incrementalUpdateIPMapping env this 1 domain options w).2 = false.
Proof.
  intros Hfree.
  apply (invoke_settled_released env this IncrementalUpdateIPMapping 1 domain options w).
  by apply (invoke_ends env this false).
Qed.

Lemma reinforce_lock_free env this n domain options w :
  globalLock w = false →
  globalLock (reinforce env this n domain options w) = false.
Proof.
  intros Hfree. induction n as [| n IH]; [exact Hfree |].
  cbn [reinforce]. by apply pass_resets_lock.
Qed.

Lemma reinforce_grows env this n m domain options w key :
  globalLock w = false →
  (n ≤ m)%nat →
  mapping key (reinforce env this n domain options w)
    ⊆ mapping key (reinforce env this m domain options w).
Proof.
  intros Hfree Hle. induction Hle as [| m Hle IH]; [done |].
  etransitivity; [exact IH |]. cbn [reinforce].
  apply pass_grows. by apply reinforce_lock_free.
Qed.

(** C4: a reconciliation pass only adds.  Whatever the invocation, none of
    its calls is an unblock or a deletion; a pass that finds the lock free
    leaves every address of the persisted set in the set; and over passes in
    a row the mapping at a later pass contains the mapping at an earlier
    one. *)
Theorem incrementalUpdateIPMapping_only_adds
    (env : Env) (this : DomainBlock) (domain : string) (options : option Options)
    (w : World) :
  globalLock w = false →
  (∀ fuel key addr,
     addr ∈ mapping key w →
     addr ∈ mapping key (incrementalUpdateIPMapping env this (S fuel) domain options w).2) ∧
  (∀ fuel w0,
     Forall (λ ev, is_removal ev = false)
       (issued_since w0 (incrementalUpdateIPMapping env this fuel domain options w0).2)) ∧
  (∀ t1 t2 key,
     (t1 < t2)%nat →
     mapping key (reinforce env this t1 domain options w)
       ⊆ mapping key (reinforce env this t2 domain options w)).
Proof.
  intros Hfree. split; [| split].
  - intros fuel key addr Hin. by apply (pass_grows env this fuel domain options w key Hfree).
  - intros fuel w0.
    eapply Forall_impl;
      [exact (evolves_issued env _ _ _
                (incrementalUpdateIPMapping_evolves env this fuel domain options w0)) |].
    intros ev. apply reconciler_event_not_removal.
  - intros t1 t2 key Hlt. apply reinforce_grows; [exact Hfree | lia].
Qed.

Lemma incrementalUpdateIPMapping_only_adds_witness :
  let env := calm_env ["1.2.3.4"; "7.7.7.7"] ["8.8.8.8"] in
  let w := idle_world two_address_store in
  let w' := (incrementalUpdateIPMapping env new_DomainBlock 1 "example.com" None w).2 in
  "5.6.7.8" ∈ mapping "ipmapping:domain:example.com" w' ∧
  "7.7.7.7" ∈ mapping "ipmapping:domain:example.com" w' ∧
  Forall (λ ev, is_removal ev = false) (issued_since w w') ∧
  mapping "ipmapping:domain:example.com" (reinforce env new_DomainBlock 1 "example.com" None w)
    ⊆ mapping "ipmapping:domain:example.com"
        (reinforce env new_DomainBlock 2 "example.com" None w).
Proof.
  intros env w w'.
  destruct (incrementalUpdateIPMapping_only_adds env new_DomainBlock "example.com" None w
              eq_refl) as (Hkeeps & Hquiet & Hmono).
  split; [| split; [| split]].
  - apply (Hkeeps 0%nat). apply (bool_decide_unpack _). vm_compute. reflexivity.
  - apply (bool_decide_unpack _). vm_compute. reflexivity.
  - apply (Hquiet 1%nat w).
  - apply (Hmono 1%nat 2%nat). lia.
Defined.

(** ** Exact mode *)

Lemma bind_ext {A B} (m m' : M A) (f f' : A → M B) w :
  m w = m' w → (∀ a w', f a w' = f' a w') → (m ≫= f) w = (m' ≫= f') w.
Proof.
  intros Hm Hf. unfold mbind, M_bind. rewrite Hm.
  destruct (m' w) as [[a|e|] w']; [apply Hf | done | done].
Qed.

Lemma catch_ext {A} (m m' : M A) handler w :
  m w = m' w → catch m handler w = catch m' handler w.
Proof. intros Hm. unfold catch. by rewrite Hm. Qed.

Lemma forEach_ext {A} (l : list A) (f f' : A → M unit) w :
  (∀ a w', f a w' = f' a w') → forEach l f w = forEach l f' w.
Proof.
  intros Hf. revert w. induction l as [| a l IH]; intros w; [done |].
  cbn [forEach]. apply bind_ext; [apply Hf | intros _ w'; apply IH].
Qed.

Section Independence.

Context (env env' : Env).
Hypothesis same : same_but_pattern env env'.

Lemma call_same {A} ev (value : World → A) effect w :
  is_pattern_lookup ev = false →
  call env ev value effect w = call env' ev value effect w.
Proof.
  intros Hev. unfold call. by rewrite (proj1 (proj1 same (trace w) ev Hev)).
Qed.

Lemma lookup_call_same ev w :
  is_pattern_lookup ev = false → lookup_call env ev w = lookup_call env' ev w.
Proof.
  intros Hev. unfold lookup_call, call.
  destruct (proj1 same (trace w) ev Hev) as [-> ->]. reflexivity.
Qed.

Lemma delay_same t w : delay env t w = delay env' t w.
Proof. unfold delay. by rewrite (proj2 same). Qed.

Ltac same_run :=
  repeat first
    [ reflexivity
    | apply bind_ext; [| intros ? ?]
    | apply catch_ext
    | apply forEach_ext; intros ? ?
    | apply lookup_call_same; reflexivity
    | apply call_same; reflexivity
    | apply delay_same
    | match goal with
      | |- (if ?b then _ else _) _ = (if ?b then _ else _) _ => destruct b
      end ].

Lemma resolveDomain_same domain w :
  resolveDomain env domain w = resolveDomain env' domain w.
Proof.
  unfold resolveDomain, resolve4Async, resolve6Async, dnsTool_addReverseDns.
  same_run.
Qed.

Lemma syncDomainIPMapping_same this domain options w :
  truthy_bool (exactMatch (options_or_empty options)) = true →
  syncDomainIPMapping env this domain options w
    = syncDomainIPMapping env' this domain options w.
Proof.
  intros Hexact. unfold syncDomainIPMapping. rewrite Hexact. cbn [negb].
  apply bind_ext; [apply resolveDomain_same | intros _ w1].
  unfold dnsTool_getAddressesByDNS, rclient_saddAsync. same_run.
Qed.

Lemma incrementalUpdateIPMapping_same this fuel domain options w :
  truthy_bool (exactMatch (options_or_empty options)) = true →
  incrementalUpdateIPMapping env this fuel domain options w
    = incrementalUpdateIPMapping env' this fuel domain options w.
Proof.
  revert options w. induction fuel as [| fuel IH]; intros options w Hexact; [done |].
  cbn [incrementalUpdateIPMapping]. rewrite Hexact. cbn [negb].
  apply finally_ext. apply bind_ext; [done | intros locked w1].
  destruct locked.
  - apply bind_ext; [done | intros _ w2].
    apply bind_ext; [apply delay_same | intros _ w3].
    exact (IH (Some (options_or_empty options)) w3 Hexact).
  - apply bind_ext; [done | intros _ w2].
    unfold rclient_existsAsync.
    apply bind_ext; [by apply call_same | intros existing w3].
    destruct (negb existing); [done |].
    apply bind_ext; [apply resolveDomain_same | intros _ w4].
    unfold dnsTool_getAddressesByDNS, getMappedIPAddresses, rclient_smembersAsync,
      rclient_saddAsync, Block_block.
    same_run.
Qed.

End Independence.

(** C6: in exact mode neither [syncDomainIPMapping] nor
    [incrementalUpdateIPMapping] ever issues the pattern lookup of the
    reverse-DNS cache, and their runs are the same whatever that lookup
    would have answered: no pattern match enters the candidate set. *)
Theorem exactMatch_never_consults_pattern
    (env : Env) (this : DomainBlock) (domain : string) (options : Options) :
  truthy_bool (exactMatch options) = true →
  (∀ w,
     Forall (λ ev, is_pattern_lookup ev = false)
       (issued_since w (syncDomainIPMapping env this domain (Some options) w).2)) ∧
  (∀ fuel w,
     Forall (λ ev, is_pattern_lookup ev = false)
       (issued_since w
          (incrementalUpdateIPMapping env this fuel domain (Some options) w).2)) ∧
  (∀ env', same_but_pattern env env' →
     (∀ w, syncDomainIPMapping env this domain (Some options) w
           = syncDomainIPMapping env' this domain (Some options) w) ∧
     (∀ fuel w, incrementalUpdateIPMapping env this fuel domain (Some options) w
                = incrementalUpdateIPMapping env' this fuel domain (Some options) w)).
Proof.
  intros Hexact. split; [| split].
  - intros w.
    pose proof (syncDomainIPMapping_evolves env this domain (Some options) w) as Hev.
    change (options_or_empty (Some options)) with options in Hev. rewrite Hexact in Hev.
    eapply Forall_impl; [exact (evolves_issued env _ _ _ Hev) |].
    intros ev. apply sync_event_not_pattern.
  - intros fuel w.
    pose proof (incrementalUpdateIPMapping_evolves env this fuel domain (Some options) w)
      as Hev.
    change (options_or_empty (Some options)) with options in Hev. rewrite Hexact in Hev.
    eapply Forall_impl; [exact (evolves_issued env _ _ _ Hev) |].
    intros ev. apply reconciler_event_not_pattern.
  - intros env' Hsame. split.
    + intros w. by apply syncDomainIPMapping_same.
    + intros fuel w. by apply incrementalUpdateIPMapping_same.
Qed.

Lemma exactMatch_never_consults_pattern_witness :
  let with_matches := calm_env ["1.2.3.4"] ["6.6.6.6"] in
  let without := calm_env ["1.2.3.4"] [] in
  let run := syncDomainIPMapping with_matches new_DomainBlock "example.com"
               (Some exact_options) (idle_world ∅) in
  answers with_matches [] (GetAddressesByDNSPattern "example.com") = ["6.6.6.6"] ∧
  Forall (λ ev, is_pattern_lookup ev = false) (issued_since (idle_world ∅) run.2) ∧
  run = syncDomainIPMapping without new_DomainBlock "example.com"
          (Some exact_options) (idle_world ∅).
Proof.
  intros with_matches without run.
  destruct (exactMatch_never_consults_pattern with_matches new_DomainBlock "example.com"
              exact_options eq_refl) as (Hsync & _ & Hsame).
  split; [reflexivity | split; [apply Hsync |]].
  apply (Hsame without).
  split; [| reflexivity].
  intros h ev Hev. split; [reflexivity |].
  destruct ev; try reflexivity. discriminate.
Defined.

(** ** The set-add of the merge *)

Lemma catch_lookup_call env ev w :
  catch (lookup_call env ev) (λ _, []) w
  = (Fulfilled (caught_answer env (trace w) ev), record ev w).
Proof.
  unfold catch, lookup_call, call, caught_answer.
  destruct (rejects env (trace w) ev); reflexivity.
Qed.

Lemma saddAsync_trace env key ms w :
  trace (rclient_saddAsync env key ms w).2 = trace w ++ [Sadd key ms].
Proof.
  unfold rclient_saddAsync, call.
  destruct (rejects env (trace w) (Sadd key ms)); reflexivity.
Qed.

Lemma resolveDomain_run env domain w :
  recording_available env →
  let v4Addresses := caught_answer env (trace w) (Resolve4 domain) in
  let h1 := trace w ++ [Resolve4 domain; AddReverseDns domain v4Addresses] in
  let v6Addresses := caught_answer env h1 (Resolve6 domain) in
  resolveDomain env domain w
  = (Fulfilled (v4Addresses ++ v6Addresses),
     {| globalLock := globalLock w; store := store w;
        trace := h1 ++ [Resolve6 domain; AddReverseDns domain v6Addresses] |}).
Proof.
  intros Hrecord v4Addresses h1 v6Addresses.
  unfold resolveDomain, resolve4Async, resolve6Async, dnsTool_addReverseDns.
  erewrite bind_fulfilled by apply catch_lookup_call.
  erewrite bind_fulfilled by (apply call_fulfils; by apply Hrecord).
  erewrite bind_fulfilled by apply catch_lookup_call.
  erewrite bind_fulfilled by (apply call_fulfils; by apply Hrecord).
  subst v4Addresses h1 v6Addresses. unfold mret, M_ret, record. simpl.
  repeat rewrite <- app_assoc. reflexivity.
Qed.

(** C10, as stated, fails: the set-add is not issued by every invocation.
    When the recording of the resolved addresses into the reverse-DNS cache
    rejects, [syncDomainIPMapping] rejects before it reaches the set-add. *)
Lemma syncDomainIPMapping_without_sadd :
  let w := idle_world ∅ in
  let run := syncDomainIPMapping (record_down_env ["1.2.3.4"]) new_DomainBlock
               "example.com" None w in
  run.1 = Rejected (AddReverseDns "example.com" ["1.2.3.4"]) ∧
  filter is_sadd (issued_since w run.2) = [].
Proof. split; vm_compute; reflexivity. Qed.

(** C10, amended: every invocation of [syncDomainIPMapping] in which the
    two recordings of resolved addresses succeed issues exactly one set-add,
    on the derived mapping key, with the merged candidate list; there is no
    emptiness check, and when the lookups yield no address the set-add is
    made with an empty member list. *)
Theorem syncDomainIPMapping_sadd_once
    (env : Env) (this : DomainBlock) (domain : string) (options : option Options)
    (w : World) :
  recording_available env →
  let exact := truthy_bool (exactMatch (options_or_empty options)) in
  let key := getDomainIPMappingKey this domain options in
  let v4Addresses := caught_answer env (trace w) (Resolve4 domain) in
  let h1 := trace w ++ [Resolve4 domain; AddReverseDns domain v4Addresses] in
  let v6Addresses := caught_answer env h1 (Resolve6 domain) in
  let h2 := h1 ++ [Resolve6 domain; AddReverseDns domain v6Addresses] in
  let addresses := caught_answer env h2 (GetAddressesByDNS domain) in
  let h3 := h2 ++ [GetAddressesByDNS domain] in
  let patternAddresses := caught_answer env h3 (GetAddressesByDNSPattern domain) in
  let list := if exact then addresses else addresses ++ patternAddresses in
  let w' := (syncDomainIPMapping env this domain options w).2 in
  trace w' = (if exact then h3 else h3 ++ [GetAddressesByDNSPattern domain])
               ++ [Sadd key list] ∧
  filter is_sadd (issued_since w w') = [Sadd key list] ∧
  ((∀ h ev, answers env h ev = []) → list = []).
Proof.
  intros Hrecord exact key v4Addresses h1 v6Addresses h2 addresses h3
    patternAddresses list w'.
  assert (trace w' = (if exact then h3 else h3 ++ [GetAddressesByDNSPattern domain])
                       ++ [Sadd key list]) as Htrace.
  { subst w'. unfold syncDomainIPMapping.
    erewrite bind_fulfilled by (by apply resolveDomain_run).
    unfold dnsTool_getAddressesByDNS, dnsTool_getAddressesByDNSPattern.
    erewrite bind_fulfilled by apply catch_lookup_call.
    fold exact. subst list. destruct exact; cbn [negb].
    - erewrite bind_fulfilled by reflexivity.
      rewrite saddAsync_trace. reflexivity.
    - erewrite bind_fulfilled
        by (erewrite bind_fulfilled by apply catch_lookup_call; reflexivity).
      rewrite saddAsync_trace. reflexivity. }
  split; [exact Htrace | split].
  - rewrite (issued_since_app w w'
               ([Resolve4 domain; AddReverseDns domain v4Addresses;
                 Resolve6 domain; AddReverseDns domain v6Addresses;
                 GetAddressesByDNS domain]
                ++ (if exact then [] else [GetAddressesByDNSPattern domain])
                ++ [Sadd key list])).
    + destruct exact; reflexivity.
    + rewrite Htrace. subst h3 h2 h1. destruct exact; simpl;
        repeat rewrite <- app_assoc; reflexivity.
  - intros Hnone. subst list addresses patternAddresses. unfold caught_answer.
    rewrite !Hnone.
    repeat match goal with
           | |- context [if ?b then _ else _] => destruct b
           end; reflexivity.
Qed.

Lemma syncDomainIPMapping_sadd_once_witness :
  let w := idle_world ∅ in
  let w' := (syncDomainIPMapping silent_env new_DomainBlock "example.com" None w).2 in
  filter is_sadd (issued_since w w') = [Sadd "ipmapping:domain:example.com" []].
Proof.
  intros w w'.
  destruct (syncDomainIPMapping_sadd_once silent_env new_DomainBlock "example.com" None w)
    as (_ & Honce & Hempty).
  - intros h ev _. reflexivity.
  - subst w'. rewrite Honce, (Hempty (λ _ _, eq_refl)). reflexivity.
Defined.

(** ** The runs of the merge and of [blockDomain] *)

Lemma syncDomainIPMapping_run env this domain options w :
  recording_available env →
  store_available env →
  let exact := truthy_bool (exactMatch (options_or_empty options)) in
  let key := getDomainIPMappingKey this domain options in
  let list := candidates env exact domain (trace w) in
  syncDomainIPMapping env this domain options w
  = (Fulfilled tt,
     {| globalLock := globalLock w;
        store := store_sadd key list (store w);
        trace := trace w ++ resolution_events env domain (trace w) ++
                 merge_events exact domain ++ [Sadd key list] |}).
Proof.
  intros Hrecord Hstore exact key list. unfold syncDomainIPMapping.
  erewrite bind_fulfilled by (by apply resolveDomain_run).
  unfold dnsTool_getAddressesByDNS, dnsTool_getAddressesByDNSPattern.
  erewrite bind_fulfilled by apply catch_lookup_call.
  fold exact. subst list. unfold candidates, merge_events, resolution_events.
  unfold rclient_saddAsync.
  destruct exact; cbn [negb].
  - erewrite bind_fulfilled by reflexivity.
    rewrite call_fulfils by (by apply Hstore).
    unfold set_store, record. simpl. repeat rewrite <- app_assoc. reflexivity.
  - erewrite bind_fulfilled
      by (erewrite bind_fulfilled by apply catch_lookup_call; reflexivity).
    rewrite call_fulfils by (by apply Hstore).
    unfold set_store, record. simpl. repeat rewrite <- app_assoc. reflexivity.
Qed.

Lemma blockDomain_run env this fuel domain options w :
  recording_available env →
  store_available env →
  globalLock w = false →
  let exact := truthy_bool (exactMatch (options_or_empty options)) in
  let key := getDomainIPMappingKey this domain options in
  let h := trace w ++ [SetGlobalLock true; AddPolicyFilterEntry domain;
                       EmitEvent "ReloadDNSRule" "DNSMASQ filter rule is updated" "FireMain"] in
  let list := candidates env exact domain h in
  let st := store_sadd key list (store w) in
  blockDomain env this (S fuel) domain options w
  = (Fulfilled tt,
     {| globalLock := false;
        store := st;
        trace := h ++ resolution_events env domain h ++ merge_events exact domain ++
                 [Sadd key list; Smembers key] ++
                 map (λ addr, BlockAddr addr "blocked_domain_set") (elements (members key st)) ++
                 [SetTimeoutIncrementalUpdate 60000 domain (options_or_empty options);
                  SetGlobalLock false] |}).
Proof.
  intros Hrecord Hstore Hfree exact key h list st. cbn [blockDomain].
  erewrite finally_ext by (apply lock_found_free; exact Hfree).
  unfold finally.
  erewrite bind_fulfilled by reflexivity.
  unfold dnsmasq_addPolicyFilterEntry, sem_emitEvent_ReloadDNSRule.
  erewrite bind_fulfilled by apply catch_call_unit.
  erewrite bind_fulfilled by reflexivity.
  set (w3 := {| globalLock := true; store := store w; trace := h |}).
  replace (record _ (record _ (set_globalLock_in true w))) with w3
    by (subst w3 h; unfold record, set_globalLock_in; simpl; by rewrite <- !app_assoc).
  erewrite bind_fulfilled by (by apply syncDomainIPMapping_run).
  erewrite bind_fulfilled by (apply applyBlock_run; by apply Hstore).
  unfold emit, set_globalLock_in, record, mapping. simpl.
  clearbody h. repeat (cbn [app]; rewrite <- app_assoc). reflexivity.
Qed.

Lemma calm_env_recording v4 pattern : recording_available (calm_env v4 pattern).
Proof. intros h ev _. reflexivity. Qed.

Lemma calm_env_store v4 pattern : store_available (calm_env v4 pattern).
Proof. intros h ev _. reflexivity. Qed.

(** X1: [blockDomain], finding the lock free and the store and the
    reverse-DNS recording available, takes the lock, installs the policy
    filter entry, emits the reload event, resolves and merges, persists the
    candidates with one set-add, reads the mapping back, issues one block
    call per member of the persisted set, schedules the reinforcement in
    60000 ms and releases the lock, in this order. *)
Theorem blockDomain_steps_in_order
    (env : Env) (this : DomainBlock) (fuel : nat) (domain : string)
    (options : option Options) (w : World) :
  recording_available env →
  store_available env →
  globalLock w = false →
  let exact := truthy_bool (exactMatch (options_or_empty options)) in
  let key := getDomainIPMappingKey this domain options in
  let h := trace w ++ [SetGlobalLock true; AddPolicyFilterEntry domain;
                       EmitEvent "ReloadDNSRule" "DNSMASQ filter rule is updated" "FireMain"] in
  let list := candidates env exact domain h in
  let st := store_sadd key list (store w) in
  blockDomain env this (S fuel) domain options w
  = (Fulfilled tt,
     {| globalLock := false;
        store := st;
        trace := h ++ resolution_events env domain h ++ merge_events exact domain ++
                 [Sadd key list; Smembers key] ++
                 map (λ addr, BlockAddr addr "blocked_domain_set") (elements (members key st)) ++
                 [SetTimeoutIncrementalUpdate 60000 domain (options_or_empty options);
                  SetGlobalLock false] |}).
Proof. intros Hrecord Hstore Hfree. by apply blockDomain_run. Qed.

Lemma blockDomain_steps_in_order_witness :
  trace (blockDomain (calm_env ["1.2.3.4"] []) new_DomainBlock 1 "example.com" None
           (idle_world ∅)).2
  = [SetGlobalLock true;
     AddPolicyFilterEntry "example.com";
     EmitEvent "ReloadDNSRule" "DNSMASQ filter rule is updated" "FireMain";
     Resolve4 "example.com"; AddReverseDns "example.com" ["1.2.3.4"];
     Resolve6 "example.com"; AddReverseDns "example.com" [];
     GetAddressesByDNS "example.com"; GetAddressesByDNSPattern "example.com";
     Sadd "ipmapping:domain:example.com" ["1.2.3.4"];
     Smembers "ipmapping:domain:example.com";
     BlockAddr "1.2.3.4" "blocked_domain_set";
     SetTimeoutIncrementalUpdate 60000 "example.com" empty_options;
     SetGlobalLock false].
Proof.
  rewrite (blockDomain_steps_in_order (calm_env ["1.2.3.4"] []) new_DomainBlock 0
             "example.com" None (idle_world ∅)).
  - vm_compute. reflexivity.
  - intros h ev _. reflexivity.
  - intros h ev _. reflexivity.
  - reflexivity.
Defined.

(** X2: a merge that goes through persists a set union.  After
    [syncDomainIPMapping] the set under the mapping key is the old set
    joined with the candidates, every other key is as it was, and with no
    candidate the store is unchanged: no empty set is created. *)
Theorem syncDomainIPMapping_persists_union
    (env : Env) (this : DomainBlock) (domain : string) (options : option Options)
    (w : World) :
  recording_available env →
  store_available env →
  let key := getDomainIPMappingKey this domain options in
  let list := candidates env (truthy_bool (exactMatch (options_or_empty options)))
                domain (trace w) in
  let w' := (syncDomainIPMapping env this domain options w).2 in
  mapping key w' = mapping key w ∪ list_to_set list ∧
  (∀ k, k ≠ key → store w' !! k = store w !! k) ∧
  (list = [] → store w' = store w).
Proof.
  intros Hrecord Hstore key list w'. subst w'.
  rewrite syncDomainIPMapping_run by assumption. fold key list.
  unfold mapping, store_sadd. simpl. destruct list as [| a l].
  - split; [| done]. simpl. by rewrite union_empty_r_L.
  - split; [| split; [| done]].
    + unfold members at 1. by rewrite lookup_insert_eq.
    + intros k Hk. by rewrite lookup_insert_ne.
Qed.

Lemma syncDomainIPMapping_persists_union_witness :
  let w' := (syncDomainIPMapping (calm_env ["1.2.3.4"; "5.6.7.8"; "1.2.3.4"] []) new_DomainBlock
               "example.com" None (idle_world custom_key_store)).2 in
  elements (mapping "ipmapping:domain:example.com" w')
    = elements ({[ "1.2.3.4"; "5.6.7.8" ]} : gset string) ∧
  store w' !! "custom:key" = custom_key_store !! "custom:key".
Proof.
  intros w'.
  destruct (syncDomainIPMapping_persists_union
              (calm_env ["1.2.3.4"; "5.6.7.8"; "1.2.3.4"] []) new_DomainBlock
              "example.com" None (idle_world custom_key_store))
    as (Hunion & Hframe & _).
  - intros h ev _. reflexivity.
  - intros h ev _. reflexivity.
  - split; [| apply Hframe; discriminate].
    etransitivity; [exact (f_equal elements Hunion) | vm_compute; reflexivity].
Defined.

(** X3: when [blockDomain] has gone through, every address of the
    persisted mapping, the members it found there included, has had a block
    call issued during the run. *)
Theorem blockDomain_blocks_whole_mapping
    (env : Env) (this : DomainBlock) (fuel : nat) (domain : string)
    (options : option Options) (w : World) (addr : string) :
  recording_available env →
  store_available env →
  globalLock w = false →
  let key := getDomainIPMappingKey this domain options in
  let w' := (blockDomain env this (S fuel) domain options w).2 in
  addr ∈ mapping key w' →
  BlockAddr addr "blocked_domain_set" ∈ issued_since w w'.
Proof.
  intros Hrecord Hstore Hfree key w' Hin. subst w'.
  rewrite blockDomain_run in Hin |- * by assumption. fold key in Hin |- *.
  erewrite issued_since_app by (cbn [trace snd]; rewrite <- app_assoc; reflexivity).
  unfold mapping in Hin. cbn [store snd] in Hin.
  rewrite !elem_of_app. right. right. right. right. left.
  apply list_elem_of_In, in_map_iff. exists addr. split; [done |].
  by apply list_elem_of_In, elem_of_elements.
Qed.

Lemma blockDomain_blocks_whole_mapping_witness :
  BlockAddr "5.6.7.8" "blocked_domain_set"
    ∈ issued_since (idle_world two_address_store)
        (blockDomain (calm_env ["9.9.9.9"] []) new_DomainBlock 1 "example.com" None
           (idle_world two_address_store)).2.
Proof.
  apply (blockDomain_blocks_whole_mapping (calm_env ["9.9.9.9"] []) new_DomainBlock 0
           "example.com" None (idle_world two_address_store) "5.6.7.8").
  - intros h ev _. reflexivity.
  - intros h ev _. reflexivity.
  - reflexivity.
  - apply (bool_decide_unpack _). vm_compute. reflexivity.
Defined.

(** ** Blocking and unblocking compose *)

Lemma delete_store_sadd key ms (st : gmap string (gset string)) :
  delete key (store_sadd key ms st) = delete key st.
Proof. unfold store_sadd. destruct ms; [done |]. apply delete_insert_eq. Qed.

Lemma omap_blocked_addr set (l : list string) :
  omap blocked_addr (map (λ addr, BlockAddr addr set) l) = l.
Proof. induction l as [| a l IH]; [done |]. csimpl. by rewrite IH. Qed.

Lemma omap_unblocked_addr set (l : list string) :
  omap unblocked_addr (map (λ addr, UnblockAddr addr set) l) = l.
Proof. induction l as [| a l IH]; [done |]. csimpl. by rewrite IH. Qed.

Lemma omap_blocked_addr_merge exact domain :
  omap blocked_addr (merge_events exact domain) = [].
Proof. by destruct exact. Qed.

(** X4: [blockDomain] followed by [unblockDomain] for the same domain and
    options, both finding the lock free, the store and the recording
    available and no override in effect: the unblock calls are for the very
    addresses the block calls were for, in the same order, and the store
    ends as it started, without the mapping key. *)
Theorem block_then_unblock
    (env : Env) (this : DomainBlock) (fuel fuel' : nat) (domain : string)
    (options : option Options) (w : World) :
  recording_available env →
  store_available env →
  truthy_string (externalMapping this) = false →
  globalLock w = false →
  let key := getDomainIPMappingKey this domain options in
  let w1 := (blockDomain env this (S fuel) domain options w).2 in
  let w2 := (unblockDomain env this (S fuel') domain options w1).2 in
  omap unblocked_addr (issued_since w1 w2) = omap blocked_addr (issued_since w w1) ∧
  store w2 = delete key (store w) ∧
  globalLock w2 = false.
Proof.
  intros Hrecord Hstore Hno Hfree key w1 w2.
  assert (Hw1 := f_equal snd
                   (blockDomain_run env this fuel domain options w Hrecord Hstore Hfree)).
  cbn zeta in Hw1. cbn [snd] in Hw1. fold key w1 in Hw1.
  assert (globalLock w1 = false) as Hfree1 by (by rewrite Hw1).
  assert (Hw2 := f_equal snd
                   (unblockDomain_run env this fuel' domain options w1 Hfree1 Hstore)).
  cbn zeta in Hw2. cbn [snd] in Hw2. fold key w2 in Hw2.
  rewrite Hno in Hw2. cbn [negb] in Hw2.
  clearbody w2. subst w2. unfold mapping. cbn [store trace globalLock].
  clearbody w1. subst w1. cbn [store trace].
  split; [| split; [apply delete_store_sadd | done]].
  unfold issued_since. cbn [trace].
  rewrite drop_app_length.
  rewrite <- (app_assoc (trace w)), drop_app_length.
  rewrite !omap_app, omap_unblocked_addr, omap_blocked_addr, omap_blocked_addr_merge.
  simpl. by rewrite !app_nil_r.
Qed.

Lemma block_then_unblock_witness :
  let env := calm_env ["1.2.3.4"; "5.6.7.8"] [] in
  let w := idle_world custom_key_store in
  let w1 := (blockDomain env new_DomainBlock 1 "example.com" None w).2 in
  let w2 := (unblockDomain env new_DomainBlock 1 "example.com" None w1).2 in
  omap unblocked_addr (issued_since w1 w2) = omap blocked_addr (issued_since w w1) ∧
  store w2 = delete "ipmapping:domain:example.com" custom_key_store.
Proof.
  intros env w w1 w2.
  destruct (block_then_unblock env new_DomainBlock 0 0 "example.com" None w)
    as (Hcalls & Hstore & _).
  - intros h ev _. reflexivity.
  - intros h ev _. reflexivity.
  - reflexivity.
  - reflexivity.
  - split; [exact Hcalls | exact Hstore].
Defined.

(** ** The key resolver separates the domains *)

Lemma derived_key_inj (this : DomainBlock) (d1 d2 : string) (o1 o2 : option Options) :
  truthy_string (externalMapping this) = false →
  getDomainIPMappingKey this d1 o1 = getDomainIPMappingKey this d2 o2 →
  d1 = d2 ∧
  truthy_bool (exactMatch (options_or_empty o1))
    = truthy_bool (exactMatch (options_or_empty o2)).
Proof.
  unfold getDomainIPMappingKey. intros Hext. rewrite Hext.
  destruct (truthy_bool (exactMatch (options_or_empty o1))),
           (truthy_bool (exactMatch (options_or_empty o2)));
    simpl; intros Heq; by simplify_eq.
Qed.

(** X5: without an override in effect the derived key determines the
    domain and the match mode: two invocations share a mapping only when
    they agree on both.  With an override in effect every domain and mode
    resolves to the one key. *)
Theorem getDomainIPMappingKey_injective
    (this : DomainBlock) (d1 d2 : string) (o1 o2 : option Options) :
  (truthy_string (externalMapping this) = false →
   getDomainIPMappingKey this d1 o1 = getDomainIPMappingKey this d2 o2 →
   d1 = d2 ∧
   truthy_bool (exactMatch (options_or_empty o1))
     = truthy_bool (exactMatch (options_or_empty o2))) ∧
  (truthy_string (externalMapping this) = true →
   getDomainIPMappingKey this d1 o1 = getDomainIPMappingKey this d2 o2).
Proof.
  split; [apply derived_key_inj |].
  unfold getDomainIPMappingKey. intros Hext. by rewrite Hext.
Qed.

Lemma getDomainIPMappingKey_injective_witness :
  getDomainIPMappingKey new_DomainBlock "example.com" None
    ≠ getDomainIPMappingKey new_DomainBlock "example.org" None ∧
  getDomainIPMappingKey {| externalMapping := Some "custom:key" |} "example.com" None
    = getDomainIPMappingKey {| externalMapping := Some "custom:key" |} "example.org"
        (Some exact_options).
Proof.
  split.
  - intros Heq.
    destruct (proj1 (getDomainIPMappingKey_injective new_DomainBlock
                       "example.com" "example.org" None None) eq_refl Heq) as [Hd _].
    discriminate Hd.
  - exact (proj2 (getDomainIPMappingKey_injective {| externalMapping := Some "custom:key" |}
                    "example.com" "example.org" None (Some exact_options)) eq_refl).
Defined.

(** ** Edge cases of the merge and of the reconciler *)



(** X7: reconciling a domain whose mapping key does not exist is a no-op.
    The pass takes the lock, asks the store whether the key exists, and
    releases the lock: no resolution, no set-add, no block call, and the
    store is unchanged. *)
Theorem incrementalUpdateIPMapping_missing_key
    (env : Env) (this : DomainBlock) (fuel : nat) (domain : string)
    (options : option Options) (w : World) :
  let key := getDomainIPMappingKey this domain options in
  globalLock w = false →
  store w !! key = None →
  rejects env (trace w ++ [SetGlobalLock true]) (Exists key) = false →
  incrementalUpdateIPMapping env this (S fuel) domain options w
  = (Fulfilled tt,
     {| globalLock := false; store := store w;
        trace := trace w ++ [SetGlobalLock true; Exists key; SetGlobalLock false] |}).
Proof.
  intros key Hfree Hmissing Hexists. cbn [incrementalUpdateIPMapping].
  erewrite finally_ext by (apply lock_found_free; exact Hfree).
  unfold finally.
  erewrite bind_fulfilled by reflexivity.
  unfold rclient_existsAsync.
  erewrite bind_fulfilled by (apply call_fulfils; exact Hexists).
  change (getDomainIPMappingKey this domain (Some (options_or_empty options))) with key.
  unfold store_exists. cbn [store record set_globalLock_in id].
  rewrite Hmissing. rewrite bool_decide_false by (by intros [? ?]).
  unfold mret, M_ret, set_globalLock_in, record. simpl.
  by rewrite <- !app_assoc.
Qed.

Lemma incrementalUpdateIPMapping_missing_key_witness :
  incrementalUpdateIPMapping (calm_env ["1.2.3.4"] []) new_DomainBlock 1 "example.org" None
    (idle_world two_address_store)
  = (Fulfilled tt,
     {| globalLock := false; store := two_address_store;
        trace := [SetGlobalLock true; Exists "ipmapping:domain:example.org";
                  SetGlobalLock false] |}).
Proof.
  apply (incrementalUpdateIPMapping_missing_key (calm_env ["1.2.3.4"] []) new_DomainBlock 0
           "example.org" None (idle_world two_address_store)).
  - reflexivity.
  - vm_compute. reflexivity.
  - reflexivity.
Defined.

(** ** A lock that is never released *)

Lemma invoke_starves env this wf fuel domain options w :
  (∀ w', (meanwhile env w').1 = true) →
  globalLock w = true →
  (invoke env this wf fuel domain options w).1 = Pending ∧
  trace (invoke env this wf fuel domain options w).2
    = trace w ++ replicate fuel (Delay 5000).
Proof.
  intros Hstuck. revert options w. induction fuel as [| fuel IH]; intros options w Hheld.
  - rewrite invoke_pending. split; [done |]. simpl. by rewrite app_nil_r.
  - rewrite invoke_deferred by exact Hheld.
    destruct (IH (retry_options wf options) (delay env 5000 w).2) as [Hpending Htrace].
    { apply Hstuck. }
    unfold finally.
    destruct (invoke env this wf fuel domain (retry_options wf options) (delay env 5000 w).2)
      as [[a|e|] w'] eqn:Hrun; simpl in Hpending; try discriminate.
    split; [done |]. simpl in Htrace |- *. rewrite Htrace.
    by rewrite <- app_assoc.
Qed.

(** X8: there is no bound on the retries and no timeout on the lock.  As
    long as the lock is held and is never released, an invocation of any of
    the three workflows stays pending however often it retries, and all it
    does is to wait: one wait of 5000 ms per retry, and no call to the
    store, the resolver or the block primitive. *)
Theorem stuck_lock_starves
    (env : Env) (this : DomainBlock) (wf : Workflow) (fuel : nat) (domain : string)
    (options : option Options) (w : World) :
  (∀ w', (meanwhile env w').1 = true) →
  globalLock w = true →
  (invoke env this wf fuel domain options w).1 = Pending ∧
  issued_since w (invoke env this wf fuel domain options w).2
    = replicate fuel (Delay 5000).
Proof.
  intros Hstuck Hheld.
  destruct (invoke_starves env this wf fuel domain options w Hstuck Hheld)
    as [Hpending Htrace].
  split; [exact Hpending | by apply issued_since_app].
Qed.

Lemma stuck_lock_starves_witness :
  let run := invoke stuck_env new_DomainBlock UnblockDomain 3 "example.com" None
               (busy_world two_address_store) in
  run.1 = Pending ∧
  issued_since (busy_world two_address_store) run.2 = [Delay 5000; Delay 5000; Delay 5000].
Proof.
  apply (stuck_lock_starves stuck_env new_DomainBlock UnblockDomain 3 "example.com" None
           (busy_world two_address_store)).
  - intros w'. reflexivity.
  - reflexivity.
Defined.

(** ** Triples *)

Section Triples.

Context (env : Env).

Lemma hoare_ret {A} (P : World → Prop) (a : A) (R : A → World → Prop) Q :
  (∀ w, P w → R a w) → hoare P (mret a : M A) R Q.
Proof. intros HR w Hw. by apply HR. Qed.

Lemma hoare_bind {A B} (P : World → Prop) (m : M A) (f : A → M B)
    (R1 : A → World → Prop) (R : B → World → Prop) Q :
  hoare P m R1 Q → (∀ a, hoare (R1 a) (f a) R Q) → hoare P (m ≫= f) R Q.
Proof.
  intros Hm Hf w Hw. specialize (Hm w Hw). unfold mbind, M_bind.
  destruct (m w) as [[a|e|] w']; [by apply Hf | done | done].
Qed.

Lemma hoare_conseq {A} (P P' : World → Prop) (m : M A)
    (R R' : A → World → Prop) (Q Q' : World → Prop) :
  hoare P' m R' Q' →
  (∀ w, P w → P' w) → (∀ a w, R' a w → R a w) → (∀ w, Q' w → Q w) →
  hoare P m R Q.
Proof.
  intros Hm HP HR HQ w Hw. specialize (Hm w (HP w Hw)).
  destruct (m w) as [[a|e|] w']; auto.
Qed.

Lemma hoare_preserves {A} (I : World → Prop) (m : M A) :
  preserves I m → hoare I m (λ _, I) I.
Proof.
  intros Hm w Hw. specialize (Hm w Hw). by destruct (m w) as [[a|e|] w'].
Qed.

Lemma hoare_call {A} (P : World → Prop) ev (value : World → A) effect
    (R : A → World → Prop) Q :
  (∀ w, P w → rejects env (trace w) ev = true → Q (record ev w)) →
  (∀ w, P w → rejects env (trace w) ev = false → R (value w) (effect (record ev w))) →
  hoare P (call env ev value effect) R Q.
Proof.
  intros HQ HR w Hw. unfold call.
  destruct (rejects env (trace w) ev) eqn:Hrej; [by apply HQ | by apply HR].
Qed.

Lemma hoare_forEach {A} (I : World → Prop) (l : list A) f Q :
  (∀ a, hoare I (f a) (λ _, I) Q) → hoare I (forEach l f) (λ _, I) Q.
Proof.
  intros Hf. induction l as [| a l IH]; cbn [forEach].
  - by apply hoare_ret.
  - apply (hoare_bind I _ _ (λ _, I)); [apply Hf | intros _; exact IH].
Qed.

(** What a triple says about the world a run ends in, whatever its
    outcome. *)
Lemma hoare_post {A} (P : World → Prop) (m : M A) (R : A → World → Prop) Q w :
  hoare P m R Q → P w →
  match (m w).1 with
  | Fulfilled a => R a (m w).2
  | _ => Q (m w).2
  end.
Proof. intros Hm Hw. specialize (Hm w Hw). by destruct (m w) as [[a|e|] w']. Qed.

End Triples.

Lemma preserves_pointwise {A} env allowed (m : M A) w0 :
  (∀ w, evolves env allowed w (m w).2) →
  preserves (evolves env allowed w0) m.
Proof. intros Hm w Hw. eapply evolves_trans; [exact Hw | apply Hm]. Qed.

Lemma sync_event_not_timer exact ev :
  sync_event exact ev = true → not_timer ev = true.
Proof. by destruct ev. Qed.

Lemma applyBlock_evolves env this allowed w0 domain options :
  (∀ key, allowed (Smembers key) = true) →
  (∀ addr set, allowed (BlockAddr addr set) = true) →
  preserves (evolves env allowed w0) (applyBlock env this domain options).
Proof.
  intros Hread Hblock. unfold applyBlock, getMappedIPAddresses.
  repeat first
    [ apply preserves_bind; [| intros ?]
    | apply preserves_catch
    | apply preserves_forEach; intros ?
    | apply call_evolves; first [apply Hread | apply Hblock] ].
Qed.

Lemma unapplyBlock_evolves env this allowed w0 domain options :
  (∀ key, allowed (Smembers key) = true) →
  (∀ addr set, allowed (UnblockAddr addr set) = true) →
  preserves (evolves env allowed w0) (unapplyBlock env this domain options).
Proof.
  intros Hread Hunblock. unfold unapplyBlock, getMappedIPAddresses.
  repeat first
    [ apply preserves_bind; [| intros ?]
    | apply preserves_catch
    | apply preserves_forEach; intros ?
    | apply call_evolves; first [apply Hread | apply Hunblock] ].
Qed.


(** ** The reinforcement timer *)

(** X9: [blockDomain] schedules the reinforcement pass exactly when it goes
    through.  Whatever fails, a run that finds the lock free has set the
    60000 ms timer if it fulfils, and has set no timer if it does not: a
    rejected block is not reinforced later. *)
Theorem blockDomain_timer_iff_fulfilled
    (env : Env) (this : DomainBlock) (fuel : nat) (domain : string)
    (options : option Options) (w : World) :
  globalLock w = false →
  let run := blockDomain env this (S fuel) domain options w in
  (fulfilled run.1 = true →
   SetTimeoutIncrementalUpdate 60000 domain (options_or_empty options)
     ∈ issued_since w run.2) ∧
  (fulfilled run.1 = false →
   Forall (λ ev, is_timer ev = false) (issued_since w run.2)).
Proof.
  intros Hfree run. subst run. cbn [blockDomain].
  erewrite finally_ext by (apply lock_found_free; exact Hfree).
  set (I := evolves env not_timer w).
  set (timer := SetTimeoutIncrementalUpdate (60 * 1000) domain (options_or_empty options)).
  match goal with
  | |- context [finally ?body _ w] =>
      assert (hoare I body (λ _ w', ∃ w1, I w1 ∧ w' = record timer w1) I) as Hbody
  end.
  { apply (hoare_bind I _ _ (λ _, I));
      [apply hoare_preserves; by apply set_globalLock_evolves | intros _].
    apply (hoare_bind I _ _ (λ _, I));
      [apply hoare_preserves, preserves_catch; by apply call_evolves | intros _].
    apply (hoare_bind I _ _ (λ _, I));
      [apply hoare_preserves; by apply emit_evolves | intros _].
    apply (hoare_bind I _ _ (λ _, I)); [apply hoare_preserves | intros _].
    { apply preserves_pointwise. intros w1.
      eapply evolves_weaken; [apply sync_event_not_timer |].
      apply syncDomainIPMapping_evolves. }
    apply (hoare_bind I _ _ (λ _, I));
      [apply hoare_preserves; by apply applyBlock_evolves | intros _].
    intros w1 Hw1. simpl. by exists w1. }
  specialize (Hbody w (evolves_refl env not_timer w)). unfold finally.
  match goal with
  | |- context [match ?body w with _ => _ end] => destruct (body w) as [[a|e|] w1]
  end; simpl.
  - destruct Hbody as (w2 & Hw2 & ->).
    destruct (evolves_trace env _ _ _ Hw2) as (evs & Heq & _).
    split; [intros _ | discriminate].
    erewrite issued_since_app
      by (simpl; rewrite Heq, <- !app_assoc; reflexivity).
    rewrite !elem_of_app. right. left. apply list_elem_of_singleton. reflexivity.
  - destruct (evolves_trace env _ _ _ Hbody) as (evs & Heq & Hall).
    split; [discriminate | intros _].
    erewrite issued_since_app by (simpl; rewrite Heq, <- !app_assoc; reflexivity).
    apply Forall_app. split; [| by repeat constructor].
    eapply Forall_impl; [exact Hall |]. intros ev. unfold not_timer.
    by destruct (is_timer ev).
  - destruct (evolves_trace env _ _ _ Hbody) as (evs & Heq & Hall).
    split; [discriminate | intros _].
    erewrite issued_since_app by exact Heq.
    eapply Forall_impl; [exact Hall |]. intros ev. unfold not_timer.
    by destruct (is_timer ev).
Qed.

Lemma blockDomain_timer_iff_fulfilled_witness :
  let w := idle_world ∅ in
  let went := blockDomain (calm_env ["1.2.3.4"] []) new_DomainBlock 1 "example.com" None w in
  let failed := blockDomain (store_down_env ["1.2.3.4"]) new_DomainBlock 1 "example.com"
                  None w in
  SetTimeoutIncrementalUpdate 60000 "example.com" empty_options ∈ issued_since w went.2 ∧
  Forall (λ ev, is_timer ev = false) (issued_since w failed.2).
Proof.
  intros w went failed. split.
  - apply (blockDomain_timer_iff_fulfilled (calm_env ["1.2.3.4"] []) new_DomainBlock 0
             "example.com" None w eq_refl).
    vm_compute. reflexivity.
  - apply (blockDomain_timer_iff_fulfilled (store_down_env ["1.2.3.4"]) new_DomainBlock 0
             "example.com" None w eq_refl).
    vm_compute. reflexivity.
Defined.

(** ** What the reconciler adds *)

Section Coverage.

Context (env : Env) (w0 : World) (key : string).

Lemma covered_refl : covered w0 key w0.
Proof. exists []. split; [by rewrite app_nil_r | auto]. Qed.

Lemma covered_record ev w : covered w0 key w → covered w0 key (record ev w).
Proof.
  intros (evs & Heq & Hcov). exists (evs ++ [ev]). split.
  - simpl. by rewrite Heq, app_assoc.
  - intros k addr Hin. destruct (Hcov k addr Hin) as [Hold | [-> Hblock]]; [by left |].
    right. split; [done |]. apply elem_of_app. by left.
Qed.

Lemma covered_lock b w : covered w0 key w → covered w0 key (set_globalLock_in b w).
Proof. apply (covered_record (SetGlobalLock b)). Qed.

Lemma covered_call {A} ev (value : World → A) :
  preserves (covered w0 key) (call env ev value id).
Proof.
  intros w Hw. unfold call.
  destruct (rejects env (trace w) ev); simpl; by apply covered_record.
Qed.

Lemma covered_lookup_call ev : preserves (covered w0 key) (lookup_call env ev).
Proof. intros w Hw. unfold lookup_call. by apply covered_call. Qed.

Lemma covered_set_globalLock b : preserves (covered w0 key) (set_globalLock b).
Proof. intros w Hw. by apply covered_lock. Qed.

(** One turn of the loop of the reconciler: the set-add and the block call
    of an address go together. *)
Lemma covered_add_and_block addr :
  preserves (covered w0 key)
    (rclient_saddAsync env key [addr];;
     catch (Block_block env addr "blocked_domain_set") (λ _, tt)).
Proof.
  intros w Hw. unfold mbind, M_bind, rclient_saddAsync, call at 1.
  destruct (rejects env (trace w) (Sadd key [addr])); [by apply covered_record |].
  unfold Block_block. rewrite catch_call_unit. cbn [snd].
  destruct Hw as (evs & Heq & Hcov).
  exists (evs ++ [Sadd key [addr]; BlockAddr addr "blocked_domain_set"]). split.
  - simpl. rewrite Heq, <- !app_assoc. reflexivity.
  - intros k a Hin. unfold mapping in Hin. cbn [store record set_store] in Hin.
    unfold store_sadd, members in Hin.
    destruct (decide (key = k)) as [<- | Hne].
    + rewrite lookup_insert_eq in Hin. simpl in Hin.
      apply elem_of_union in Hin as [Hold | Hnew].
      * destruct (Hcov key a Hold) as [? | [_ Hblock]]; [by left |].
        right. split; [done |]. apply elem_of_app. by left.
      * right. split; [done |]. apply elem_of_app. right.
        rewrite union_empty_r_L in Hnew. apply elem_of_singleton in Hnew. subst a.
        apply list_elem_of_In. simpl. auto.
    + rewrite lookup_insert_ne in Hin by done.
      destruct (Hcov k a Hin) as [? | [-> _]]; [by left | done].
Qed.

Lemma resolveDomain_covered domain : preserves (covered w0 key) (resolveDomain env domain).
Proof.
  unfold resolveDomain.
  repeat first
    [ apply preserves_ret
    | apply preserves_bind; [| intros ?]
    | apply preserves_catch
    | apply covered_lookup_call
    | apply covered_call ].
Qed.

End Coverage.

(** X10: every address a reconciliation pass adds to the store has a block
    call issued for it in the same pass.  After a pass that found the lock
    free, whatever failed on the way, an address that is in a set of the
    store was there before the pass, or is in the set under the mapping key
    and had its block call. *)
Theorem incrementalUpdateIPMapping_blocks_what_it_adds
    (env : Env) (this : DomainBlock) (fuel : nat) (domain : string)
    (options : option Options) (w : World) (k addr : string) :
  globalLock w = false →
  let key := getDomainIPMappingKey this domain options in
  let w' := (incrementalUpdateIPMapping env this (S fuel) domain options w).2 in
  addr ∈ mapping k w' →
  addr ∈ mapping k w ∨
  (k = key ∧ BlockAddr addr "blocked_domain_set" ∈ issued_since w w').
Proof.
  intros Hfree key w'.
  assert (covered w key w') as (evs & Heq & Hcov).
  { subst w'. cbn [incrementalUpdateIPMapping].
    erewrite finally_ext by (apply lock_found_free; exact Hfree).
    apply (preserves_finally (covered w key)); [| apply covered_lock | apply covered_refl].
    apply preserves_bind; [apply covered_set_globalLock | intros _].
    apply preserves_bind; [apply covered_call | intros existing].
    apply preserves_if; [apply preserves_ret |].
    apply preserves_bind; [apply resolveDomain_covered | intros _].
    apply preserves_bind; [apply preserves_catch, covered_lookup_call | intros addresses].
    apply preserves_bind; [| intros set].
    { apply preserves_if; [| apply preserves_ret].
      apply preserves_bind; [apply preserves_catch, covered_lookup_call | intros ?].
      apply preserves_ret. }
    apply preserves_bind; [apply covered_call | intros existingAddresses].
    apply preserves_forEach. intros a.
    apply preserves_if; [apply covered_add_and_block | apply preserves_ret]. }
  intros Hin. rewrite (issued_since_app w w' evs Heq). by apply Hcov.
Qed.

Lemma incrementalUpdateIPMapping_blocks_what_it_adds_witness :
  let env := flaky_block_env "7.7.7.7" in
  let w := {| globalLock := false; store := two_address_store;
              trace := [AddReverseDns "example.com" ["7.7.7.7"]] |} in
  let w' := (incrementalUpdateIPMapping env new_DomainBlock 1 "example.com" None w).2 in
  ("7.7.7.7" ∉ mapping "ipmapping:domain:example.com" w) ∧
  "7.7.7.7" ∈ mapping "ipmapping:domain:example.com" w' ∧
  BlockAddr "7.7.7.7" "blocked_domain_set" ∈ issued_since w w'.
Proof.
  intros env w w'.
  assert ("7.7.7.7" ∉ mapping "ipmapping:domain:example.com" w) as Hnew
    by (apply (bool_decide_unpack _); vm_compute; reflexivity).
  assert ("7.7.7.7" ∈ mapping "ipmapping:domain:example.com" w') as Hadded
    by (apply (bool_decide_unpack _); vm_compute; reflexivity).
  split; [exact Hnew | split; [exact Hadded |]].
  destruct (incrementalUpdateIPMapping_blocks_what_it_adds env new_DomainBlock 0
              "example.com" None w "ipmapping:domain:example.com" "7.7.7.7" eq_refl Hadded)
    as [Hold | [_ Hblock]]; [contradiction | exact Hblock].
Defined.

Lemma elem_of_foldl_obj_put (l acc : list string) (k : string) :
  k ∈ foldl obj_put acc l ↔ k ∈ acc ∨ k ∈ l.
Proof.
  revert acc. induction l as [| a l IH]; intros acc; simpl.
  - split; [by left | intros [? | Hin]; [done | by apply elem_of_nil in Hin]].
  - rewrite IH. unfold obj_put. rewrite elem_of_cons.
    destruct (bool_decide_reflect (a ∈ acc)) as [Hin | Hout].
    + split; [intros [? | ?]; auto | intros [? | [-> | ?]]; auto].
    + rewrite elem_of_app, list_elem_of_singleton.
      split; [intros [[? | ->] | ?]; auto | intros [? | [-> | ?]]; auto].
Qed.

Lemma obj_has_foldl_obj_put (l : list string) (k : string) :
  obj_has (foldl obj_put [] l) k = bool_decide (k ∈ l).
Proof.
  unfold obj_has. apply bool_decide_ext. rewrite elem_of_foldl_obj_put.
  split; [intros [Hin | ?]; [by apply elem_of_nil in Hin | done] | by right].
Qed.

Lemma evolves_reads_only_store env w w' :
  evolves env reads_only w w' → store w' = store w.
Proof. intros Hev. induction Hev; simpl in *; done. Qed.

Lemma resolveDomain_reads env allowed w0 domain :
  (∀ ev, reads_only ev = true → allowed ev = true) →
  preserves (evolves env allowed w0) (resolveDomain env domain).
Proof.
  intros Hallowed. unfold resolveDomain.
  repeat first
    [ apply preserves_ret
    | apply preserves_bind; [| intros ?]
    | apply preserves_catch
    | apply lookup_call_evolves; apply Hallowed; reflexivity
    | apply call_evolves; apply Hallowed; reflexivity ].
Qed.

Lemma reads_only_adds_only_new key present ev :
  reads_only ev = true → adds_only_new key present ev = true.
Proof. by destruct ev. Qed.

Lemma adds_only_new_touches_only key present ev :
  adds_only_new key present ev = true → touches_only key ev = true.
Proof.
  destruct ev as [| | | | | | | | k ms | | | | | | | |]; try done.
  destruct ms as [| a [| b ms]]; simpl; try done.
  by intros [? _]%andb_true_iff.
Qed.

(** A pass that finds the lock free reads the store until its loop, and in
    the loop adds only what it did not read. *)
Lemma incrementalUpdateIPMapping_adds_only_new_evolves env this fuel domain options w :
  globalLock w = false →
  let key := getDomainIPMappingKey this domain options in
  evolves env (adds_only_new key (mapping key w)) w
    (incrementalUpdateIPMapping env this (S fuel) domain options w).2.
Proof.
  intros Hfree key. cbn [incrementalUpdateIPMapping].
  erewrite finally_ext by (apply lock_found_free; exact Hfree).
  change (getDomainIPMappingKey this domain (Some (options_or_empty options))) with key.
  set (I := evolves env (adds_only_new key (mapping key w)) w).
  set (P := evolves env reads_only w).
  assert (∀ w1, P w1 → I w1) as HPI.
  { intros w1 Hw1. eapply evolves_weaken; [apply reads_only_adds_only_new | exact Hw1]. }
  assert (∀ A (m : M A), preserves P m → hoare P m (λ _, P) I) as Hquiet.
  { intros A m Hm. eapply hoare_conseq; [by apply hoare_preserves | auto ..]. }
  unfold finally.
  match goal with
  | |- context [match ?body w with _ => _ end] =>
      assert (hoare P body (λ _, I) I) as Hbody
  end.
  { apply (hoare_bind P _ _ (λ _, P));
      [apply Hquiet; by apply set_globalLock_evolves | intros _].
    apply (hoare_bind P _ _ (λ _, P)); [apply Hquiet; by apply call_evolves | intros existing].
    destruct (negb existing); [by apply hoare_ret |].
    apply (hoare_bind P _ _ (λ _, P));
      [apply Hquiet; by apply resolveDomain_reads | intros _].
    apply (hoare_bind P _ _ (λ _, P));
      [apply Hquiet, preserves_catch; by apply lookup_call_evolves | intros addresses].
    apply (hoare_bind P _ _ (λ _, P)); [apply Hquiet | intros set].
    { apply preserves_if; [| apply preserves_ret].
      apply preserves_bind; [apply preserves_catch; by apply lookup_call_evolves | intros ?].
      apply preserves_ret. }
    apply (hoare_bind P _ _ (λ v w1, P w1 ∧ v = elements (mapping key w))).
    { unfold getMappedIPAddresses, rclient_smembersAsync.
      change (getDomainIPMappingKey this domain (Some (options_or_empty options))) with key.
      apply hoare_call.
      - intros w1 Hw1 _. apply HPI. by apply evolves_record.
      - intros w1 Hw1 _. split; [by apply evolves_record |].
        unfold store_smembers, mapping. by rewrite (evolves_reads_only_store env w w1 Hw1). }
    intros existingAddresses w1 [Hw1 ->].
    apply (hoare_forEach I); [| by apply HPI].
    intros addr. apply hoare_preserves.
    rewrite obj_has_foldl_obj_put.
    destruct (bool_decide_reflect (addr ∈ elements (mapping key w))) as [Hin | Hout];
      cbn [negb]; [apply preserves_ret |].
    apply preserves_bind; [| intros _; apply preserves_catch; by apply call_evolves].
    apply saddAsync_evolves. simpl.
    rewrite !bool_decide_true; [done | | done].
    intros Hin. apply Hout. by apply elem_of_elements. }
  specialize (Hbody w (evolves_refl env reads_only w)).
  match goal with
  | |- context [match ?body w with _ => _ end] => destruct (body w) as [[a|e|] w1]
  end; simpl; [by apply evolves_lock | by apply evolves_lock | done].
Qed.

(** X11: a reconciliation pass adds only what is new.  Every set-add a pass
    that found the lock free issues is on the mapping key, with a single
    address, and that address was not in the persisted set when the pass
    started; the pass issues no deletion. *)
Theorem incrementalUpdateIPMapping_adds_only_new
    (env : Env) (this : DomainBlock) (fuel : nat) (domain : string)
    (options : option Options) (w : World) :
  globalLock w = false →
  let key := getDomainIPMappingKey this domain options in
  let w' := (incrementalUpdateIPMapping env this (S fuel) domain options w).2 in
  Forall (λ ev,
            match ev with
            | Sadd k ms => k = key ∧ ∃ addr, ms = [addr] ∧ addr ∉ mapping key w
            | Del _ => False
            | _ => True
            end) (issued_since w w').
Proof.
  intros Hfree key w'.
  eapply Forall_impl;
    [exact (evolves_issued env _ _ _
              (incrementalUpdateIPMapping_adds_only_new_evolves env this fuel domain
                 options w Hfree)) |].
  intros ev. fold key.
  destruct ev as [| | | | | | | | k ms | | | | | | | |]; try done.
  destruct ms as [| a [| b ms]]; simpl; try done.
  intros [Hk Ha]%andb_true_iff.
  apply bool_decide_eq_true in Hk, Ha. split; [done | by exists a].
Qed.

Lemma incrementalUpdateIPMapping_adds_only_new_witness :
  let env := calm_env ["1.2.3.4"; "7.7.7.7"] [] in
  let w := idle_world two_address_store in
  let w' := (incrementalUpdateIPMapping env new_DomainBlock 1 "example.com" None w).2 in
  filter is_sadd (issued_since w w') = [Sadd "ipmapping:domain:example.com" ["7.7.7.7"]] ∧
  Forall (λ ev,
            match ev with
            | Sadd k ms =>
                k = "ipmapping:domain:example.com" ∧
                ∃ addr, ms = [addr] ∧ addr ∉ mapping "ipmapping:domain:example.com" w
            | Del _ => False
            | _ => True
            end) (issued_since w w').
Proof.
  intros env w w'. split; [vm_compute; reflexivity |].
  exact (incrementalUpdateIPMapping_adds_only_new env new_DomainBlock 0 "example.com"
           None w eq_refl).
Defined.

(** ** A workflow keeps to its own key *)

Lemma reads_only_touches_only key ev :
  reads_only ev = true → touches_only key ev = true.
Proof. by destruct ev. Qed.

Lemma touches_own_key key ms :
  touches_only key (Sadd key ms) = true ∧ touches_only key (Del key) = true.
Proof. simpl. by rewrite bool_decide_true. Qed.

Lemma evolves_touches_only_frame env key w w' k :
  evolves env (touches_only key) w w' →
  k ≠ key →
  store w' !! k = store w !! k.
Proof.
  intros Hev Hk. induction Hev as [| ev w' _ IH _
                                | k0 ms w' _ IH Hok | k0 w' _ IH Hok
                                | b w' _ IH _
                                | t w' _ _ Hok]; simpl in *.
  - done.
  - exact IH.
  - apply bool_decide_eq_true in Hok. subst k0.
    unfold store_sadd. destruct ms; [exact IH |].
    by rewrite lookup_insert_ne.
  - apply bool_decide_eq_true in Hok. subst k0.
    unfold store_del. by rewrite lookup_delete_ne.
  - exact IH.
  - discriminate.
Qed.

Lemma syncDomainIPMapping_touches_only env this domain options w0 :
  preserves (evolves env (touches_only (getDomainIPMappingKey this domain options)) w0)
    (syncDomainIPMapping env this domain options).
Proof.
  unfold syncDomainIPMapping.
  apply preserves_bind;
    [apply resolveDomain_reads, reads_only_touches_only | intros _].
  apply preserves_bind; [apply preserves_catch; by apply lookup_call_evolves | intros ?].
  apply preserves_bind; [| intros list].
  { apply preserves_if; [| apply preserves_ret].
    apply preserves_bind; [apply preserves_catch; by apply lookup_call_evolves | intros ?].
    apply preserves_ret. }
  apply saddAsync_evolves.
  exact (proj1 (touches_own_key (getDomainIPMappingKey this domain options) list)).
Qed.

(** The events of a workflow that finds the lock free. *)
Lemma invoke_touches_only env this wf fuel domain options w :
  globalLock w = false →
  evolves env (touches_only (getDomainIPMappingKey this domain options)) w
    (invoke env this wf (S fuel) domain options w).2.
Proof.
  intros Hfree. set (key := getDomainIPMappingKey this domain options).
  destruct wf; cbn [invoke].
  - cbn [blockDomain].
    erewrite finally_ext by (apply lock_found_free; exact Hfree).
    apply (preserves_finally (evolves env (touches_only key) w));
      [| intros w' Hw'; by apply evolves_lock | apply evolves_refl].
    apply preserves_bind; [by apply set_globalLock_evolves | intros _].
    apply preserves_bind; [apply preserves_catch; by apply call_evolves | intros _].
    apply preserves_bind; [by apply emit_evolves | intros _].
    apply preserves_bind;
      [apply (syncDomainIPMapping_touches_only env this domain
                (Some (options_or_empty options))) | intros _].
    apply preserves_bind; [by apply applyBlock_evolves | intros _].
    by apply emit_evolves.
  - cbn [unblockDomain].
    erewrite finally_ext by (apply lock_found_free; exact Hfree).
    apply (preserves_finally (evolves env (touches_only key) w));
      [| intros w' Hw'; by apply evolves_lock | apply evolves_refl].
    apply preserves_bind; [by apply set_globalLock_evolves | intros _].
    apply preserves_bind; [by apply unapplyBlock_evolves | intros _].
    apply preserves_bind; [| intros _].
    { apply preserves_if; [| apply preserves_ret].
      apply delAsync_evolves. exact (proj2 (touches_own_key key [])). }
    apply preserves_bind; [apply preserves_catch; by apply call_evolves | intros _].
    by apply emit_evolves.
  - eapply evolves_weaken; [apply adds_only_new_touches_only |].
    by apply incrementalUpdateIPMapping_adds_only_new_evolves.
Qed.

(** X12: a workflow keeps to its own mapping key.  [blockDomain],
    [unblockDomain] and [incrementalUpdateIPMapping], finding the lock free,
    leave every other key of the store as it was, whatever fails; so without
    an override in effect a workflow for one domain never changes the
    mapping of another domain. *)
Theorem workflow_keeps_to_its_key
    (env : Env) (this : DomainBlock) (wf : Workflow) (fuel : nat) (domain : string)
    (options : option Options) (w : World) :
  globalLock w = false →
  let w' := (invoke env this wf (S fuel) domain options w).2 in
  (∀ k, k ≠ getDomainIPMappingKey this domain options → store w' !! k = store w !! k) ∧
  (truthy_string (externalMapping this) = false →
   ∀ domain' options', domain' ≠ domain →
     mapping (getDomainIPMappingKey this domain' options') w'
       = mapping (getDomainIPMappingKey this domain' options') w).
Proof.
  intros Hfree w'.
  assert (∀ k, k ≠ getDomainIPMappingKey this domain options →
               store w' !! k = store w !! k) as Hframe.
  { intros k Hk. eapply evolves_touches_only_frame; [| exact Hk].
    by apply invoke_touches_only. }
  split; [exact Hframe |].
  intros Hno domain' options' Hother. unfold mapping, members.
  rewrite Hframe; [done |].
  intros Heq. by destruct (derived_key_inj this domain' domain options' options Hno Heq).
Qed.

Lemma workflow_keeps_to_its_key_witness :
  let w := idle_world two_address_store in
  let w' := (invoke (calm_env ["9.9.9.9"] []) new_DomainBlock BlockDomain 1 "example.org"
               None w).2 in
  store w' !! "ipmapping:domain:example.com" = store w !! "ipmapping:domain:example.com" ∧
  mapping (getDomainIPMappingKey new_DomainBlock "example.com" None) w'
    = mapping (getDomainIPMappingKey new_DomainBlock "example.com" None) w.
Proof.
  intros w w'.
  destruct (workflow_keeps_to_its_key (calm_env ["9.9.9.9"] []) new_DomainBlock BlockDomain 0
              "example.org" None w eq_refl) as [Hframe Hdomains].
  split.
  - apply Hframe. discriminate.
  - apply (Hdomains eq_refl). discriminate.
Defined.

(** ** Bulk administration: properties *)

Lemma glob_star s : Bulk.glob "*" s = true.
Proof.
  induction s as [| d s IH]; [reflexivity |].
  simpl in *. exact IH.
Qed.

Lemma glob_literal_prefix pattern s :
  Bulk.literal pattern = true →
  Bulk.glob (pattern +:+ "*") s = String.prefix pattern s.
Proof.
  revert s. induction pattern as [| c pattern IH]; intros s Hliteral.
  - rewrite glob_star. by destruct s.
  - cbn [Bulk.literal] in Hliteral. apply andb_true_iff in Hliteral as [Hc Hliteral].
    apply negb_true_iff in Hc.
    simpl. rewrite Hc.
    destruct s as [| d s]; [reflexivity |].
    rewrite IH by exact Hliteral. simpl.
    destruct (Ascii.ascii_dec c d) as [-> | Hne].
    + by rewrite Ascii.eqb_refl.
    + apply Ascii.eqb_neq in Hne. by rewrite Hne.
Qed.

Lemma glob_namespace k : Bulk.glob "ipmapping:*" k = String.prefix "ipmapping:" k.
Proof. exact (glob_literal_prefix "ipmapping:" k eq_refl). Qed.

Lemma elem_of_store_keys (st : gmap string (gset string)) k :
  k ∈ Bulk.store_keys "ipmapping:*" st ↔
  is_Some (st !! k) ∧ String.prefix "ipmapping:" k = true.
Proof.
  unfold Bulk.store_keys. rewrite list_elem_of_filter, elem_of_elements, elem_of_dom.
  rewrite glob_namespace, Is_true_true. tauto.
Qed.

Lemma lookup_store_del_keys keys (st : gmap string (gset string)) k :
  Bulk.store_del_keys keys st !! k = if bool_decide (k ∈ keys) then None else st !! k.
Proof.
  unfold Bulk.store_del_keys. induction keys as [| a keys IH]; [done |].
  cbn [foldr]. destruct (decide (a = k)) as [-> | Hne].
  - rewrite lookup_delete_eq, bool_decide_true; [done | apply elem_of_cons; by left].
  - rewrite lookup_delete_ne, IH by done.
    rewrite (bool_decide_ext (k ∈ a :: keys) (k ∈ keys)); [done |].
    rewrite elem_of_cons. split; [intros [Heq | Hin]; [by subst | exact Hin] | by right].
Qed.

Lemma filter_all {A} (P : A → Prop) `{!∀ x, Decision (P x)} (l : list A) :
  Forall P l → filter P l = l.
Proof.
  induction 1 as [| x l Hx _ IH]; [done |].
  rewrite filter_cons_True by done. by rewrite IH.
Qed.

Lemma derived_key_in_namespace this domain options :
  truthy_string (externalMapping this) = false →
  String.prefix "ipmapping:" (getDomainIPMappingKey this domain options) = true.
Proof.
  unfold getDomainIPMappingKey. intros ->.
  by destruct (truthy_bool (exactMatch (options_or_empty options))).
Qed.

Lemma getAllIPMappings_run refuses r :
  refuses (Bulk.commands r) (Bulk.Keys "ipmapping:*") = false →
  Bulk.getAllIPMappings refuses r
  = (Bulk.Fulfilled (Bulk.store_keys "ipmapping:*" (Bulk.keyspace r)),
     {| Bulk.keyspace := Bulk.keyspace r;
        Bulk.commands := Bulk.commands r ++ [Bulk.Keys "ipmapping:*"] |}).
Proof.
  intros Hok. unfold Bulk.getAllIPMappings, Bulk.rclient_keysAsync, Bulk.send.
  unfold mbind, Bulk.Admin_bind. by rewrite Hok.
Qed.

(** X13: [getAllIPMappings], when KEYS is answered, fulfils with the keys of
    the store that start with [ipmapping:], each once, and leaves the store
    as it is. *)
Theorem getAllIPMappings_lists_namespace
    (refuses : list Bulk.Command → Bulk.Command → bool) (r : Bulk.Redis) :
  refuses (Bulk.commands r) (Bulk.Keys "ipmapping:*") = false →
  ∃ list,
    (Bulk.getAllIPMappings refuses r).1 = Bulk.Fulfilled list ∧
    NoDup list ∧
    (∀ k, k ∈ list ↔
          is_Some (Bulk.keyspace r !! k) ∧ String.prefix "ipmapping:" k = true) ∧
    Bulk.keyspace (Bulk.getAllIPMappings refuses r).2 = Bulk.keyspace r.
Proof.
  intros Hok. rewrite getAllIPMappings_run by exact Hok.
  exists (Bulk.store_keys "ipmapping:*" (Bulk.keyspace r)).
  split; [done | split; [| split; [| done]]].
  - apply NoDup_filter, NoDup_elements.
  - intros k. apply elem_of_store_keys.
Qed.

Lemma getAllIPMappings_lists_namespace_witness :
  (Bulk.getAllIPMappings Bulk.willing
     {| Bulk.keyspace := custom_key_store; Bulk.commands := [] |}).1
  = Bulk.Fulfilled ["ipmapping:domain:example.com"].
Proof.
  destruct (getAllIPMappings_lists_namespace Bulk.willing
              {| Bulk.keyspace := custom_key_store; Bulk.commands := [] |} eq_refl)
    as (list & Hrun & _ & _ & _).
  rewrite Hrun. f_equal. vm_compute in Hrun. by injection Hrun as <-.
Defined.

(** X14: [removeAllIPMappings], when both commands are answered, deletes
    every key that starts with [ipmapping:] with one DEL, fulfils with their
    number, and leaves every other key as it is.  So no derived mapping of
    any domain survives, and a set under a caller's key outside the
    namespace does. *)
Theorem removeAllIPMappings_purges_namespace
    (refuses : list Bulk.Command → Bulk.Command → bool) (r : Bulk.Redis) :
  (∀ h c, refuses h c = false) →
  let list := Bulk.store_keys "ipmapping:*" (Bulk.keyspace r) in
  let r' := (Bulk.removeAllIPMappings refuses r).2 in
  (Bulk.removeAllIPMappings refuses r).1 = Bulk.Fulfilled (length list) ∧
  Bulk.commands r' = Bulk.commands r ++ [Bulk.Keys "ipmapping:*"; Bulk.DelKeys list] ∧
  (∀ k, Bulk.keyspace r' !! k
        = if String.prefix "ipmapping:" k then None else Bulk.keyspace r !! k) ∧
  (∀ this domain options,
     truthy_string (externalMapping this) = false →
     members (getDomainIPMappingKey this domain options) (Bulk.keyspace r') = ∅).
Proof.
  intros Hok list r'.
  assert (Bulk.removeAllIPMappings refuses r
          = (Bulk.Fulfilled (Bulk.store_count list (Bulk.keyspace r)),
             {| Bulk.keyspace := Bulk.store_del_keys list (Bulk.keyspace r);
                Bulk.commands := Bulk.commands r ++
                                 [Bulk.Keys "ipmapping:*"; Bulk.DelKeys list] |})) as Hrun.
  { unfold Bulk.removeAllIPMappings. unfold mbind at 1, Bulk.Admin_bind at 1.
    rewrite getAllIPMappings_run by apply Hok.
    unfold Bulk.rclient_delAsync, Bulk.send. cbn [Bulk.commands Bulk.keyspace].
    rewrite Hok. by rewrite <- app_assoc. }
  assert (∀ k, Bulk.keyspace r' !! k
               = if String.prefix "ipmapping:" k then None else Bulk.keyspace r !! k)
    as Hpurged.
  { intros k. subst r'. rewrite Hrun. cbn [snd Bulk.keyspace].
    rewrite lookup_store_del_keys.
    destruct (bool_decide_reflect (k ∈ list)) as [Hin | Hout].
    - apply elem_of_store_keys in Hin as [_ ->]. done.
    - destruct (String.prefix "ipmapping:" k) eqn:Hprefix; [| done].
      destruct (Bulk.keyspace r !! k) eqn:Hk; [| done].
      exfalso. apply Hout, elem_of_store_keys. by rewrite Hk. }
  split; [| split; [by subst r'; rewrite Hrun | split; [exact Hpurged |]]].
  - rewrite Hrun. cbn [fst]. f_equal. unfold Bulk.store_count. f_equal.
    apply filter_all, Forall_forall. intros k Hin.
    by apply elem_of_store_keys in Hin as [? _].
  - intros this domain options Hno. unfold members.
    by rewrite Hpurged, derived_key_in_namespace.
Qed.

Lemma removeAllIPMappings_purges_namespace_witness :
  let r := {| Bulk.keyspace := custom_key_store; Bulk.commands := [] |} in
  let r' := (Bulk.removeAllIPMappings Bulk.willing r).2 in
  (Bulk.removeAllIPMappings Bulk.willing r).1 = Bulk.Fulfilled 1%nat ∧
  Bulk.keyspace r' !! "ipmapping:domain:example.com" = None ∧
  Bulk.keyspace r' !! "custom:key" = custom_key_store !! "custom:key" ∧
  members (getDomainIPMappingKey new_DomainBlock "example.com" None) (Bulk.keyspace r') = ∅.
Proof.
  intros r r'.
  destruct (removeAllIPMappings_purges_namespace Bulk.willing r (λ _ _, eq_refl))
    as (Hrun & _ & Hpurged & Hderived).
  split; [| split; [| split]].
  - rewrite Hrun. f_equal.
  - apply (Hpurged "ipmapping:domain:example.com").
  - apply (Hpurged "custom:key").
  - apply (Hderived new_DomainBlock "example.com" None eq_refl).
Defined.

(** X15: when KEYS fails, [removeAllIPMappings] rejects with that failure
    without sending a DEL, and the store is as it was. *)
Theorem removeAllIPMappings_keys_fail
    (refuses : list Bulk.Command → Bulk.Command → bool) (r : Bulk.Redis) :
  refuses (Bulk.commands r) (Bulk.Keys "ipmapping:*") = true →
  Bulk.removeAllIPMappings refuses r
  = (Bulk.Rejected (Bulk.Keys "ipmapping:*"),
     {| Bulk.keyspace := Bulk.keyspace r;
        Bulk.commands := Bulk.commands r ++ [Bulk.Keys "ipmapping:*"] |}).
Proof.
  intros Hfail.
  unfold Bulk.removeAllIPMappings, Bulk.getAllIPMappings, Bulk.rclient_keysAsync, Bulk.send.
  unfold mbind, Bulk.Admin_bind. by rewrite Hfail.
Qed.

Lemma removeAllIPMappings_keys_fail_witness :
  Bulk.keyspace
    (Bulk.removeAllIPMappings Bulk.keys_down
       {| Bulk.keyspace := custom_key_store; Bulk.commands := [] |}).2
  = custom_key_store.
Proof.
  by rewrite (removeAllIPMappings_keys_fail Bulk.keys_down
                {| Bulk.keyspace := custom_key_store; Bulk.commands := [] |} eq_refl).
Defined.

(** ** Edge cases of [unblockDomain] *)

(** X16: unblocking a domain that has no mapping.  With no override in
    effect, the lock free and the store available, [unblockDomain] issues no
    unblock call, sends its DEL all the same, removes the policy filter
    entry, and leaves the store as it was. *)
Theorem unblockDomain_missing_mapping
    (env : Env) (this : DomainBlock) (fuel : nat) (domain : string)
    (options : option Options) (w : World) :
  let key := getDomainIPMappingKey this domain options in
  truthy_string (externalMapping this) = false →
  store w !! key = None →
  globalLock w = false →
  store_available env →
  unblockDomain env this (S fuel) domain options w
  = (Fulfilled tt,
     {| globalLock := false;
        store := store w;
        trace := trace w ++
          [SetGlobalLock true; Smembers key; Del key;
           RemovePolicyFilterEntry domain;
           EmitEvent "ReloadDNSRule" "DNSMASQ filter rule is updated" "FireMain";
           SetGlobalLock false] |}).
Proof.
  intros key Hno Hmissing Hfree Hstore.
  rewrite unblockDomain_run by assumption. fold key.
  rewrite Hno. cbn [negb]. unfold mapping, members, store_del.
  rewrite Hmissing, delete_id by exact Hmissing. cbn [from_option].
  by rewrite elements_empty.
Qed.

Lemma unblockDomain_missing_mapping_witness :
  unblockDomain (calm_env [] []) new_DomainBlock 1 "example.org" None
    (idle_world two_address_store)
  = (Fulfilled tt,
     {| globalLock := false;
        store := two_address_store;
        trace :=
          [SetGlobalLock true; Smembers "ipmapping:domain:example.org";
           Del "ipmapping:domain:example.org";
           RemovePolicyFilterEntry "example.org";
           EmitEvent "ReloadDNSRule" "DNSMASQ filter rule is updated" "FireMain";
           SetGlobalLock false] |}).
Proof.
  apply (unblockDomain_missing_mapping (calm_env [] []) new_DomainBlock 0 "example.org" None
           (idle_world two_address_store)).
  - reflexivity.
  - vm_compute. reflexivity.
  - reflexivity.
  - intros h ev _. reflexivity.
Defined.

(** X17: when the deletion of the mapping fails, [unblockDomain] has
    already issued the unblock calls and rejects without removing the policy
    filter entry and without the reload event: the addresses are unblocked,
    the mapping and the DNS filter stay. *)
Theorem unblockDomain_del_fails
    (env : Env) (this : DomainBlock) (fuel : nat) (domain : string)
    (options : option Options) (w : World) :
  let key := getDomainIPMappingKey this domain options in
  let calls := [SetGlobalLock true; Smembers key] ++
               map (λ addr, UnblockAddr addr "blocked_domain_set")
                   (elements (mapping key w)) in
  truthy_string (externalMapping this) = false →
  globalLock w = false →
  rejects env (trace w ++ [SetGlobalLock true]) (Smembers key) = false →
  rejects env (trace w ++ calls) (Del key) = true →
  unblockDomain env this (S fuel) domain options w
  = (Rejected (Del key),
     {| globalLock := false;
        store := store w;
        trace := trace w ++ calls ++ [Del key; SetGlobalLock false] |}).
Proof.
  intros key calls Hno Hfree Hread Hdel. cbn [unblockDomain].
  erewrite finally_ext by (apply lock_found_free; exact Hfree).
  unfold finally.
  erewrite bind_fulfilled by reflexivity.
  erewrite bind_fulfilled by (apply unapplyBlock_run; exact Hread).
  rewrite Hno. cbn [negb].
  unfold removeDomainIPMapping, rclient_delAsync. fold key.
  unfold mbind, M_bind, call. cbn [trace set_globalLock_in store globalLock].
  unfold mapping.
  assert ((trace w ++ [SetGlobalLock true]) ++
          Smembers key :: map (λ addr, UnblockAddr addr "blocked_domain_set")
                            (elements (members key (store (set_globalLock_in true w))))
          = trace w ++ calls) as ->
    by (subst calls; unfold mapping; simpl; by rewrite <- app_assoc).
  rewrite Hdel. unfold record, set_globalLock_in. subst calls. simpl.
  by rewrite <- !app_assoc.
Qed.

Lemma unblockDomain_del_fails_witness :
  let run := unblockDomain del_down_env new_DomainBlock 1 "example.com" None
               (idle_world two_address_store) in
  run.1 = Rejected (Del "ipmapping:domain:example.com") ∧
  store run.2 = two_address_store ∧
  (RemovePolicyFilterEntry "example.com" ∉ trace run.2).
Proof.
  intros run. subst run.
  rewrite (unblockDomain_del_fails del_down_env new_DomainBlock 0 "example.com" None
             (idle_world two_address_store)) by reflexivity.
  split; [reflexivity | split; [reflexivity |]].
  apply (bool_decide_unpack _). vm_compute. reflexivity.
Defined.

(** ** The lock around a workflow *)

Lemma sync_event_inner exact ev : sync_event exact ev = true → inner_event ev = true.
Proof. by destruct ev. Qed.

(** A workflow that finds the lock free takes it and then runs a body that
    leaves the lock alone and does not wait. *)
Lemma invoke_body env this wf fuel domain options w :
  globalLock w = false →
  ∃ rest : M unit,
    invoke env this wf (S fuel) domain options w
      = finally (set_globalLock true;; rest) (set_globalLock_in false) w ∧
    ∀ w1, evolves env inner_event w1 (rest w1).2.
Proof.
  intros Hfree. destruct wf; cbn [invoke blockDomain unblockDomain incrementalUpdateIPMapping];
    (erewrite finally_ext by (apply lock_found_free; exact Hfree));
    eexists; (split; [reflexivity |]); intros w1.
  - apply (preserves_bind (evolves env inner_event w1));
      [apply preserves_catch; by apply call_evolves | intros _ | apply evolves_refl].
    apply preserves_bind; [by apply emit_evolves | intros _].
    apply preserves_bind; [| intros _].
    { apply preserves_pointwise. intros w2.
      eapply evolves_weaken; [apply sync_event_inner |].
      apply syncDomainIPMapping_evolves. }
    apply preserves_bind; [by apply applyBlock_evolves | intros _].
    by apply emit_evolves.
  - apply (preserves_bind (evolves env inner_event w1));
      [by apply unapplyBlock_evolves | intros _ | apply evolves_refl].
    apply preserves_bind; [| intros _].
    { apply preserves_if; [by apply delAsync_evolves | apply preserves_ret]. }
    apply preserves_bind; [apply preserves_catch; by apply call_evolves | intros _].
    by apply emit_evolves.
  - apply (preserves_bind (evolves env inner_event w1));
      [by apply call_evolves | intros existing | apply evolves_refl].
    apply preserves_if; [apply preserves_ret |].
    apply preserves_bind;
      [apply resolveDomain_evolves; intros ev; apply sync_event_inner | intros _].
    unfold getMappedIPAddresses, rclient_smembersAsync. evolve.
Qed.

(** X18: a workflow that finds the lock free holds it for the whole of its
    run.  Whatever fails, what it does is: assign true to the lock flag,
    then calls none of which is a wait or another assignment to the flag,
    then assign false. *)
Theorem workflow_holds_lock
    (env : Env) (this : DomainBlock) (wf : Workflow) (fuel : nat) (domain : string)
    (options : option Options) (w : World) :
  globalLock w = false →
  ∃ evs,
    issued_since w (invoke env this wf (S fuel) domain options w).2
      = SetGlobalLock true :: evs ++ [SetGlobalLock false] ∧
    Forall (λ ev, inner_event ev = true) evs.
Proof.
  intros Hfree.
  assert (Hsettled := invoke_ends env this false (λ H, False_ind _ (diff_false_true H))
                        wf fuel domain options w Hfree).
  destruct (invoke_body env this wf fuel domain options w Hfree) as (rest & Heq & Hrest).
  rewrite Heq in Hsettled |- *. unfold finally in Hsettled |- *.
  erewrite bind_fulfilled in Hsettled |- * by reflexivity.
  specialize (Hrest (set_globalLock_in true w)).
  destruct (rest (set_globalLock_in true w)) as [[a|e|] w2]; simpl in *;
    try discriminate;
    destruct (evolves_trace env _ _ _ Hrest) as (evs & Htrace & Hall);
    exists evs; (split; [| exact Hall]);
    apply issued_since_app; simpl; rewrite Htrace; simpl;
    by rewrite <- !app_assoc.
Qed.

Lemma workflow_holds_lock_witness :
  ∃ evs,
    issued_since (idle_world two_address_store)
      (invoke (store_down_env []) new_DomainBlock UnblockDomain 1 "example.com" None
         (idle_world two_address_store)).2
      = SetGlobalLock true :: evs ++ [SetGlobalLock false] ∧
    Forall (λ ev, inner_event ev = true) evs.
Proof.
  exact (workflow_holds_lock (store_down_env []) new_DomainBlock UnblockDomain 0
           "example.com" None (idle_world two_address_store) eq_refl).
Defined.

(** ** Resolution *)

(** X19: [resolveDomain] records what it returns.  When the recordings go
    through it fulfils with the IPv4 answers followed by the IPv6 answers,
    each family being empty when its resolver failed, after recording the
    very same two lists, and it touches neither the store nor the lock.
    When the recording of the IPv4 answers fails it rejects before the IPv6
    lookup is made. *)
Theorem resolveDomain_records_what_it_returns
    (env : Env) (domain : string) (w : World) :
  let v4Addresses := caught_answer env (trace w) (Resolve4 domain) in
  let h1 := trace w ++ [Resolve4 domain; AddReverseDns domain v4Addresses] in
  let v6Addresses := caught_answer env h1 (Resolve6 domain) in
  (recording_available env →
   resolveDomain env domain w
   = (Fulfilled (v4Addresses ++ v6Addresses),
      {| globalLock := globalLock w; store := store w;
         trace := h1 ++ [Resolve6 domain; AddReverseDns domain v6Addresses] |})) ∧
  (rejects env (trace w ++ [Resolve4 domain]) (AddReverseDns domain v4Addresses) = true →
   resolveDomain env domain w
   = (Rejected (AddReverseDns domain v4Addresses),
      {| globalLock := globalLock w; store := store w; trace := h1 |})).
Proof.
  intros v4Addresses h1 v6Addresses. split.
  - intros Hrecord. by apply resolveDomain_run.
  - intros Hfail. unfold resolveDomain, resolve4Async, dnsTool_addReverseDns.
    erewrite bind_fulfilled by apply catch_lookup_call.
    fold v4Addresses. unfold mbind at 1, M_bind at 1, call at 1.
    cbn [trace record]. rewrite Hfail. unfold record. subst h1. simpl.
    by rewrite <- !app_assoc.
Qed.

Lemma resolveDomain_records_what_it_returns_witness :
  (resolveDomain stormy_env "example.com" (idle_world ∅)).1 = Fulfilled [] ∧
  resolveDomain (record_down_env ["1.2.3.4"]) "example.com" (idle_world ∅)
  = (Rejected (AddReverseDns "example.com" ["1.2.3.4"]),
     {| globalLock := false; store := ∅;
        trace := [Resolve4 "example.com"; AddReverseDns "example.com" ["1.2.3.4"]] |}).
Proof.
  split.
  - rewrite (proj1 (resolveDomain_records_what_it_returns stormy_env "example.com"
                      (idle_world ∅))).
    + reflexivity.
    + intros h ev Hev. simpl. rewrite Hev. apply negb_false_iff, orb_true_r.
  - apply (proj2 (resolveDomain_records_what_it_returns (record_down_env ["1.2.3.4"])
                    "example.com" (idle_world ∅))).
    reflexivity.
Defined.

(** ** Blocking again *)

Lemma store_sadd_present key ms (st : gmap string (gset string)) :
  (∀ addr, addr ∈ ms → addr ∈ members key st) →
  store_sadd key ms st = st.
Proof.
  intros Hpresent. unfold store_sadd. destruct ms as [| a ms]; [done |].
  assert (a ∈ members key st) as Ha by (apply Hpresent, elem_of_cons; by left).
  unfold members in *. destruct (st !! key) as [present |] eqn:Hkey; simpl in *.
  - apply insert_id. rewrite Hkey. f_equal. apply set_eq. intros x.
    rewrite !elem_of_union, elem_of_singleton, elem_of_list_to_set.
    split; [by left |]. intros [Hx | [-> | Hx]]; [done | done |].
    apply Hpresent, elem_of_cons. by right.
  - by apply not_elem_of_empty in Ha.
Qed.

(** X20: blocking again brings nothing new.  When every candidate of the
    merge is already in the persisted set, [blockDomain], going through,
    leaves the store exactly as it was: members are not duplicated, and no
    key is created or removed. *)
Theorem blockDomain_nothing_new
    (env : Env) (this : DomainBlock) (fuel : nat) (domain : string)
    (options : option Options) (w : World) :
  recording_available env →
  store_available env →
  globalLock w = false →
  let exact := truthy_bool (exactMatch (options_or_empty options)) in
  let key := getDomainIPMappingKey this domain options in
  let h := trace w ++ [SetGlobalLock true; AddPolicyFilterEntry domain;
                       EmitEvent "ReloadDNSRule" "DNSMASQ filter rule is updated" "FireMain"] in
  (∀ addr, addr ∈ candidates env exact domain h → addr ∈ mapping key w) →
  store (blockDomain env this (S fuel) domain options w).2 = store w.
Proof.
  intros Hrecord Hstore Hfree exact key h Hpresent.
  rewrite blockDomain_run by assumption. cbn [store snd].
  by apply store_sadd_present.
Qed.

Lemma blockDomain_nothing_new_witness :
  let w1 := (blockDomain (calm_env ["1.2.3.4"] []) new_DomainBlock 1 "example.com" None
               (idle_world ∅)).2 in
  store (blockDomain (calm_env ["1.2.3.4"] []) new_DomainBlock 1 "example.com" None w1).2
  = store w1.
Proof.
  intros w1.
  apply (blockDomain_nothing_new (calm_env ["1.2.3.4"] []) new_DomainBlock 0 "example.com"
           None w1).
  - intros h ev _. reflexivity.
  - intros h ev _. reflexivity.
  - reflexivity.
  - intros addr Hin. apply (bool_decide_unpack _).
    vm_compute in Hin.
    apply elem_of_cons in Hin as [-> | Hin];
      [| apply list_elem_of_singleton in Hin as ->]; vm_compute; reflexivity.
Defined.
